(** * dcron/cron/chain.go: job wrappers and their composition

    The file embeds [chain.go]: the [Chain] of [JobWrapper]s with its
    [Then], and the three wrappers [Recover], [DelayIfStillRunning] and
    [SkipIfStillRunning].

    A wrapper returns a closure over state it allocates when it is applied
    (a [sync.Mutex], a buffered channel), and the closure is then invoked
    from many goroutines.  The embedding therefore has three layers:

    - the store of synchronisation primitives, the clock and the logger's
      sink ([shared]), and wrapper application as explicit state passing
      over it ([JobWrapper], [Then]);
    - the closures, defunctionalised ([Job]), and the code of their [Run]
      as a deterministic step function of one goroutine ([tstep]), with
      deferred calls kept on a stack of frames; [run] follows one
      goroutine while the rest of the program acts on the store;
    - the interleaving of goroutines and of the passing of time ([step]),
      with [sched] to follow a given schedule.

    The jobs of the caller are finite sequences of side effects that end
    in a return or in a panic; what they do is recorded in the history of
    the store, next to the acquisitions and releases of the mutexes. *)

From stdpp Require Import base option list gmap strings relations.
From Stdlib Require Import ZArith Lia.

Open Scope Z_scope.

(** ** Values, log records, events *)

(** Goroutines, locations of the store, loggers and the side effects of
    the caller's jobs are named by numbers. *)
Abbreviation tid := nat (only parsing).
Abbreviation loc := nat (only parsing).
Abbreviation Logger := nat (only parsing).
Abbreviation act := nat (only parsing).

(** A non-nil value handed to [panic]. *)
Inductive value :=
  | VStr (s : string)
  | VInt (n : Z).

(** Go's [interface{}]: [None] is [nil]. *)
Definition any := option value.

(** How a function body ends: [return], or [panic(r)].  [Panic None] is
    [panic(nil)], after which [recover()] gives nil back: the runtime's
    behaviour before Go 1.21, and since then under [GODEBUG=panicnil=1],
    which is the default for a main module whose [go.mod] asks for a
    language version before 1.21.  Otherwise the runtime turns the nil
    into a [*runtime.PanicNilError], which is a [Panic (Some _)]. *)
Inductive exit :=
  | Return
  | Panic (r : any).

(** Modelled from the spec: the [Job] interface, "a single zero-argument,
    no-return operation that performs side effects and may raise a
    fault", and the adapter [FuncJob] that makes a [func()] a [Job]; both
    are declared outside [chain.go].  A job is one of the three closures
    of [chain.go] with what it has captured, or a job of the caller: a
    finite sequence of side effects followed by its end. *)
Inductive Job :=
  | Base (body : list act) (fin : exit)
  | RecoverJob (logger : Logger) (j : Job)
  | DelayJob (logger : Logger) (mu : loc) (j : Job)
  | SkipJob (logger : Logger) (ch : loc) (j : Job).

(** The deferred call of an activation that has not returned yet. *)
Inductive frame :=
  | FRecover (logger : Logger)           (* defer func() { if r := recover() ... }() *)
  | FDelay (mu : loc)                    (* defer mu.Unlock() *)
  | FSkip (ch : loc) (v : unit).         (* defer func() { ch <- v }() *)

Inductive level := LError | LInfo.

Inductive arg :=
  | AAny (r : any)
  | AStack (site : list frame)           (* debug.Stack() : the frames alive at the panic *)
  | ADuration (d : Z).

(** Modelled from the spec: the logging capability [dlog.Logger],
    declared outside [chain.go], with "a formatted error-level record
    operation and a formatted informational-level record operation".  A
    record keeps the level, the format and the arguments of the call. *)
Record logrec := LogRec { lvl : level; format : string; args : list arg }.

Inductive event :=
  | EvAct (t : tid) (a : act)
  | EvLock (t : tid) (mu : loc)
  | EvUnlock (t : tid) (mu : loc).

Definition nl : string := String (Ascii.ascii_of_nat 10) EmptyString.

Definition Errorf (fmt : string) (xs : list arg) : logrec := LogRec LError fmt xs.
Definition Infof (fmt : string) (xs : list arg) : logrec := LogRec LInfo fmt xs.

(** ** The shared store *)

(** A buffered channel of [struct{}]. *)
Record chan := Chan { cap : nat; buf : list unit }.

Record shared := Shared {
  clock : Z;                             (* monotonic clock, nanoseconds *)
  locked : gset loc;                     (* the mutexes that are held *)
  chans : gmap loc chan;
  next : loc;                            (* next free location *)
  logs : list (Logger * logrec);
  hist : list event
}.

Definition set_clock (c : Z) (sh : shared) : shared :=
  Shared c (locked sh) (chans sh) (next sh) (logs sh) (hist sh).
Definition set_locked (l : gset loc) (sh : shared) : shared :=
  Shared (clock sh) l (chans sh) (next sh) (logs sh) (hist sh).
Definition set_chans (m : gmap loc chan) (sh : shared) : shared :=
  Shared (clock sh) (locked sh) m (next sh) (logs sh) (hist sh).
Definition set_next (n : loc) (sh : shared) : shared :=
  Shared (clock sh) (locked sh) (chans sh) n (logs sh) (hist sh).
(** [logger.Errorf(...)] and [logger.Infof(...)] add their record to the
    sink. *)
Definition log (lg : Logger) (r : logrec) (sh : shared) : shared :=
  Shared (clock sh) (locked sh) (chans sh) (next sh) (logs sh ++ [(lg, r)]) (hist sh).
Definition emit (e : event) (sh : shared) : shared :=
  Shared (clock sh) (locked sh) (chans sh) (next sh) (logs sh) (hist sh ++ [e]).

Definition emits (es : list event) (sh : shared) : shared :=
  Shared (clock sh) (locked sh) (chans sh) (next sh) (logs sh) (hist sh ++ es).

(** [time.Minute] and the range of [time.Duration] (an int64). *)
Definition Minute : Z := 60 * 1000000000.
Definition maxDuration : Z := 2 ^ 63 - 1.
Definition minDuration : Z := - 2 ^ 63.

(** [time.Since(start)] at clock [now]: the difference of the two
    monotonic readings, saturated to a [Duration]. *)
Definition Since (now start : Z) : Z :=
  Z.max minDuration (Z.min maxDuration (now - start)).

(** [ch <- v]: [None] when the send would block (buffer full, or no such
    channel). *)
Definition send (ch : loc) (v : unit) (sh : shared) : option shared :=
  match chans sh !! ch with
  | Some c =>
      if decide (length (buf c) < cap c)%nat
      then Some (set_chans (<[ch := Chan (cap c) (buf c ++ [v])]> (chans sh)) sh)
      else None
  | None => None
  end.

(** [v := <-ch] as a [select] case: [None] when the case is not ready. *)
Definition recv (ch : loc) (sh : shared) : option (unit * shared) :=
  match chans sh !! ch with
  | Some (Chan n (v :: vs)) => Some (v, set_chans (<[ch := Chan n vs]> (chans sh)) sh)
  | _ => None
  end.

Definition is_locked (mu : loc) (sh : shared) : bool := bool_decide (mu ∈ locked sh).

(** ** Wrappers and chains *)

(** [type JobWrapper func(Job) Job]; applying one may allocate. *)
Abbreviation JobWrapper := (Job → shared → Job * shared).

Record Chain := mkChain { wrappers : list JobWrapper }.

Definition NewChain (c : list JobWrapper) : Chain := mkChain c.

(** The loop of [Then]: [idx] are the values of [i] still to come.  An
    index outside the slice is a run-time panic ([None]). *)
Fixpoint Then_loop (ws : list JobWrapper) (idx : list nat) (j : Job) (sh : shared)
  : option (Job * shared) :=
  match idx with
  | [] => Some (j, sh)
  | i :: idx' =>
      match ws !! (length ws - i - 1)%nat with
      | Some w => let '(j', sh') := w j sh in Then_loop ws idx' j' sh'
      | None => None
      end
  end.

Definition Then (c : Chain) (j : Job) (sh : shared) : option (Job * shared) :=
  Then_loop (wrappers c) (seq 0 (length (wrappers c))) j sh.

(** [m1(m2(m3(job)))], the innermost application evaluated first. *)
Fixpoint nested (ws : list JobWrapper) (j : Job) (sh : shared) : Job * shared :=
  match ws with
  | [] => (j, sh)
  | w :: ws' => let '(j', sh') := nested ws' j sh in w j' sh'
  end.

Definition Recover (logger : Logger) : JobWrapper :=
  fun j sh => (RecoverJob logger j, sh).

(** [var mu sync.Mutex]: a fresh mutex, unlocked. *)
Definition DelayIfStillRunning (logger : Logger) : JobWrapper :=
  fun j sh =>
    let mu := next sh in
    (DelayJob logger mu j, set_next (S mu) (set_locked (locked sh ∖ {[mu]}) sh)).

(** [ch = make(chan struct{}, 1); ch <- struct{}{}]. *)
Definition SkipIfStillRunning (logger : Logger) : JobWrapper :=
  fun j sh =>
    let ch := next sh in
    let sh1 := set_next (S ch) (set_chans (<[ch := Chan 1 []]> (chans sh)) sh) in
    (SkipJob logger ch j, default sh1 (send ch tt sh1)).

(** ** One goroutine *)

Inductive control :=
  | Call (j : Job)                                   (* about to run [j.Run()] *)
  | DelayLock (logger : Logger) (mu : loc) (start : Z) (j : Job)   (* at [mu.Lock()] *)
  | DelaySince (logger : Logger) (mu : loc) (start : Z) (j : Job)  (* at [time.Since(start)] *)
  | SkipDefault (logger : Logger)                    (* in the [default] case *)
  | Returning                                        (* leaving an activation normally *)
  | Panicking (r : any) (site : list frame).         (* leaving it by a panic raised at [site] *)

Record thread := Thread { ctl : control; stk : list frame }.

Inductive result :=
  | Next (sh : shared) (th : thread)
  | Blocked
  | Halted                                           (* the invocation is over *)
  | Fatal.                                           (* unlock of unlocked mutex *)

Definition leave (fin : exit) (s : list frame) : control :=
  match fin with
  | Return => Returning
  | Panic r => Panicking r s
  end.

Definition recover_format : string := "panic: stack %v" +:+ nl +:+ "%s" +:+ nl.
Definition delay_format : string := "delay duration=%v".
Definition skip_format : string := "skip".

(** One step of goroutine [t]. *)
Definition tstep (t : tid) (sh : shared) (th : thread) : result :=
  match ctl th, stk th with
  (* a job of the caller *)
  | Call (Base [] fin), s => Next sh (Thread (leave fin s) s)
  | Call (Base (a :: body) fin), s => Next (emit (EvAct t a) sh) (Thread (Call (Base body fin)) s)
  (* Recover: defer func() {...}(); j.Run() *)
  | Call (RecoverJob lg j), s => Next sh (Thread (Call j) (FRecover lg :: s))
  (* DelayIfStillRunning: start := time.Now() *)
  | Call (DelayJob lg mu j), s => Next sh (Thread (DelayLock lg mu (clock sh) j) s)
  (* mu.Lock(); defer mu.Unlock() *)
  | DelayLock lg mu start j, s =>
      if is_locked mu sh then Blocked
      else Next (emit (EvLock t mu) (set_locked ({[mu]} ∪ locked sh) sh))
                (Thread (DelaySince lg mu start j) (FDelay mu :: s))
  (* if dur := time.Since(start); dur > time.Minute { logger.Infof(...) }; j.Run() *)
  | DelaySince lg mu start j, s =>
      let dur := Since (clock sh) start in
      Next (if decide (dur > Minute) then log lg (Infof delay_format [ADuration dur]) sh else sh)
           (Thread (Call j) s)
  (* SkipIfStillRunning: select { case v := <-ch: defer ...; j.Run()  default: ... } *)
  | Call (SkipJob lg ch j), s =>
      match recv ch sh with
      | Some (v, sh') => Next sh' (Thread (Call j) (FSkip ch v :: s))
      | None => Next sh (Thread (SkipDefault lg) s)
      end
  (* logger.Infof("skip") *)
  | SkipDefault lg, s => Next (log lg (Infof skip_format []) sh) (Thread Returning s)
  (* the deferred function of Recover *)
  | Returning, FRecover lg :: s => Next sh (Thread Returning s)
  | Panicking r site, FRecover lg :: s =>
      match r with
      | Some v => Next (log lg (Errorf recover_format [AAny r; AStack site]) sh) (Thread Returning s)
      | None => Next sh (Thread Returning s)
      end
  (* mu.Unlock() *)
  | (Returning | Panicking _ _) as c, FDelay mu :: s =>
      if is_locked mu sh
      then Next (emit (EvUnlock t mu) (set_locked (locked sh ∖ {[mu]}) sh)) (Thread c s)
      else Fatal
  (* ch <- v *)
  | (Returning | Panicking _ _) as c, FSkip ch v :: s =>
      match send ch v sh with
      | Some sh' => Next sh' (Thread c s)
      | None => Blocked
      end
  | (Returning | Panicking _ _), [] => Halted
  end.

(** [n] steps of goroutine [t].  Other goroutines and the clock act on
    the store in between: [env k] is what they did to it just before the
    step that has [k] more steps after it. *)
Fixpoint run (env : nat → shared → shared) (n : nat) (t : tid) (sh : shared) (th : thread)
  : option (shared * thread) :=
  match n with
  | O => Some (sh, th)
  | S n' =>
      match tstep t (env n' sh) th with
      | Next sh' th' => run env n' t sh' th'
      | _ => None
      end
  end.

(** Nothing else runs. *)
Definition alone : nat → shared → shared := λ _ sh, sh.

(** The goroutine is leaving an activation, normally or by a panic. *)
Definition leaving (c : control) : Prop :=
  match c with
  | Returning | Panicking _ _ => True
  | _ => False
  end.

(** The invocation is over. *)
Definition finished (th : thread) : Prop := leaving (ctl th) ∧ stk th = [].

(** ** Goroutines together *)

Record config := Config { store : shared; pool : list thread }.

(** Time passes, or one goroutine takes a step. *)
Inductive step : config → config → Prop :=
  | step_tick sh p d :
      0 ≤ d →
      step (Config sh p) (Config (set_clock (clock sh + d) sh) p)
  | step_thread sh p t th sh' th' :
      p !! t = Some th →
      tstep t sh th = Next sh' th' →
      step (Config sh p) (Config sh' (<[t := th']> p)).

(** A schedule, for running a pool: which goroutine moves, or by how much
    the clock advances. *)
Inductive move :=
  | Tick (d : Z)
  | Go (t : tid).

Definition sched_step (m : move) (c : config) : option config :=
  match m with
  | Tick d => if decide (0 ≤ d) then Some (Config (set_clock (clock (store c) + d) (store c)) (pool c)) else None
  | Go t =>
      match pool c !! t with
      | Some th =>
          match tstep t (store c) th with
          | Next sh' th' => Some (Config sh' (<[t := th']> (pool c)))
          | _ => None
          end
      | None => None
      end
  end.

Fixpoint sched (ms : list move) (c : config) : option config :=
  match ms with
  | [] => Some c
  | m :: ms' =>
      match sched_step m c with
      | Some c' => sched ms' c'
      | None => None
      end
  end.

(** The configuration a schedule leads to; a schedule that cannot be
    followed leaves the configuration where it was. *)
Definition after (ms : list move) (c : config) : config := default c (sched ms c).

(** An invocation that has not started. *)
Definition invoke (j : Job) : thread := Thread (Call j) [].

(** The store between invocations: no mutex held, every channel a full
    single slot. *)
Definition idle (sh : shared) : Prop :=
  locked sh = ∅ ∧ ∀ ch c, chans sh !! ch = Some c → c = Chan 1 [tt].

(** A pool of invocations none of which has started, over an idle store. *)
Definition initial (c : config) : Prop :=
  idle (store c) ∧ Forall (λ th, ∃ j, th = invoke j) (pool c).

Definition reachable (c : config) : Prop := ∃ c0, initial c0 ∧ rtc step c0 c.

(** A wrapper that hands an idle store back idle. *)
Definition idle_wrapper (w : JobWrapper) : Prop :=
  ∀ j sh, idle sh → idle (w j sh).2.

(** ** Who holds what *)

Global Instance frame_eq_dec : EqDecision frame.
Proof. solve_decision. Defined.

(** The activations of goroutine [th] whose deferred call is [f]. *)
Definition holds (f : frame) (th : thread) : nat :=
  length (filter (λ g, g = f) (stk th)).

Definition holders (f : frame) (p : list thread) : nat :=
  sum_list (map (holds f) p).

(** The goroutine is inside the job wrapped under [f]. *)
Definition inside (f : frame) (th : thread) : Prop := f ∈ stk th.

Definition b2n (b : bool) : nat := if b then 1%nat else 0%nat.

Definition tokens (ch : loc) (sh : shared) : nat :=
  match chans sh !! ch with
  | Some c => length (buf c)
  | None => 0
  end.

Definition slots (ch : loc) (sh : shared) : nat :=
  match chans sh !! ch with
  | Some c => cap c
  | None => 0
  end.

(** A mutex is held exactly when one activation has its unlock pending. *)
Definition mutex_inv (c : config) : Prop :=
  ∀ mu, holders (FDelay mu) (pool c) = b2n (is_locked mu (store c)).

(** A channel's one token is in its buffer or with one activation. *)
Definition token_inv (c : config) : Prop :=
  ∀ ch, (tokens ch (store c) + holders (FSkip ch tt) (pool c) = slots ch (store c))%nat
        ∧ (slots ch (store c) ≤ 1)%nat.

(** ** Small programs *)

Definition store0 : shared := Shared 0 ∅ ∅ O [] [].

Definition boom : any := Some (VStr "boom").

(** One job under [SkipIfStillRunning], invoked twice; the job fails. *)
Definition skip_job : Job * shared :=
  SkipIfStillRunning 1%nat (Base [5%nat; 6%nat] (Panic boom)) store0.
Definition skip_pool : config :=
  Config skip_job.2 [invoke skip_job.1; invoke skip_job.1].

(** The same under [DelayIfStillRunning]. *)
Definition delay_job : Job * shared :=
  DelayIfStillRunning 1%nat (Base [5%nat; 6%nat] (Panic boom)) store0.
Definition delay_pool : config :=
  Config delay_job.2 [invoke delay_job.1; invoke delay_job.1].

(** What the rest of the program does to the store of a goroutine that
    finds the lock taken for eighty seconds. *)
Definition eighty_seconds_late : nat → shared → shared :=
  λ k sh, if decide (k = 1%nat) then set_clock (clock sh + 80 * 1000000000) sh else sh.

(** ** Serial executions under [DelayIfStillRunning] *)

(** What one invocation is asked to do: the body and the end of the
    caller's job. *)
Definition delayed (lg mu : nat) (spec : list act * exit) : Job :=
  DelayJob lg mu (Base spec.1 spec.2).

(** The events of one whole turn of goroutine [t] under the mutex. *)
Definition turn (mu : loc) (specs : list (list act * exit)) (t : tid) : list event :=
  match specs !! t with
  | Some spec => EvLock t mu :: map (EvAct t) spec.1 ++ [EvUnlock t mu]
  | None => []
  end.

(** Where an invocation is: not yet under the mutex, under it with part
    of the body done, or over. *)
Inductive status :=
  | Idle
  | Busy (did : list act)
  | Over.

Definition status_of (order : list tid) (cur : option (tid * list act)) (t : tid) : status :=
  if decide (t ∈ order) then Over
  else match cur with
       | Some (t', did) => if decide (t = t') then Busy did else Idle
       | None => Idle
       end.

Definition at_status (lg mu : nat) (spec : list act * exit) (st : status) (th : thread) : Prop :=
  match st with
  | Idle =>
      th = invoke (delayed lg mu spec)
      ∨ ∃ start, th = Thread (DelayLock lg mu start (Base spec.1 spec.2)) []
  | Busy did =>
      ∃ rest, spec.1 = did ++ rest
        ∧ ((did = [] ∧ ∃ start, th = Thread (DelaySince lg mu start (Base spec.1 spec.2)) [FDelay mu])
           ∨ th = Thread (Call (Base rest spec.2)) [FDelay mu]
           ∨ (rest = [] ∧ th = Thread (leave spec.2 [FDelay mu]) [FDelay mu]))
  | Over => th = Thread (leave spec.2 [FDelay mu]) []
  end.

(** The events of the turn that is under way. *)
Definition partial (mu : loc) (cur : option (tid * list act)) : list event :=
  match cur with
  | Some (t, did) => EvLock t mu :: map (EvAct t) did
  | None => []
  end.

(** The history is the turns of [order], whole and one after the other,
    then the turn under way; the goroutines are where that says. *)
Definition serial (lg mu : nat) (specs : list (list act * exit)) (h0 : list event)
    (c : config) (order : list tid) (cur : option (tid * list act)) : Prop :=
  NoDup order
  ∧ hist (store c) = h0 ++ concat (turn mu specs <$> order) ++ partial mu cur
  ∧ is_locked mu (store c) = bool_decide (is_Some cur)
  ∧ length (pool c) = length specs
  ∧ (∀ t, t ∈ order → (t < length specs)%nat)
  ∧ (∀ t did, cur = Some (t, did) → (t ∉ order) ∧ (t < length specs)%nat)
  ∧ ∀ t spec th, specs !! t = Some spec → pool c !! t = Some th →
                 at_status lg mu spec (status_of order cur t) th.

(** No goroutine can take a step. *)
Definition quiescent (c : config) : Prop :=
  ∀ t th, pool c !! t = Some th → ∀ sh' th', tstep t (store c) th ≠ Next sh' th'.

(** ** A measure of what is left to do *)

Fixpoint job_weight (j : Job) : nat :=
  match j with
  | Base body _ => S (length body)
  | RecoverJob _ j => 2 + job_weight j
  | DelayJob _ _ j => 4 + job_weight j
  | SkipJob _ _ j => 2 + job_weight j
  end.

Definition weight (th : thread) : nat :=
  match ctl th with
  | Call j => job_weight j
  | DelayLock _ _ _ j => 3 + job_weight j
  | DelaySince _ _ _ j => 1 + job_weight j
  | SkipDefault _ => 1
  | Returning | Panicking _ _ => 0
  end + length (stk th).

Definition total_weight (p : list thread) : nat := sum_list (weight <$> p).

(** ** Registration *)

(** The wrappers of [chain.go]. *)
Inductive chain_wrapper : JobWrapper → Prop :=
  | cw_Recover lg : chain_wrapper (Recover lg)
  | cw_Delay lg : chain_wrapper (DelayIfStillRunning lg)
  | cw_Skip lg : chain_wrapper (SkipIfStillRunning lg).

(** The locations a job has captured, the outermost closure first. *)
Fixpoint prims (j : Job) : list loc :=
  match j with
  | Base _ _ => []
  | RecoverJob _ j => prims j
  | DelayJob _ mu j => mu :: prims j
  | SkipJob _ ch j => ch :: prims j
  end.

(** The channels among them. *)
Fixpoint chans_of (j : Job) : list loc :=
  match j with
  | Base _ _ => []
  | RecoverJob _ j | DelayJob _ _ j => chans_of j
  | SkipJob _ ch j => ch :: chans_of j
  end.

(** ** Unwinding *)

(** How a goroutine that leaves by [k] under the frames [s] ends up: the
    first [Recover] on the way stops a panic. *)
Fixpoint settle (k : control) (s : list frame) : control :=
  match s with
  | [] => k
  | FRecover _ :: s' => settle Returning s'
  | _ :: s' => settle k s'
  end.

(** What is logged on the way. *)
Fixpoint settle_logs (k : control) (s : list frame) : list (Logger * logrec) :=
  match s with
  | [] => []
  | FRecover lg :: s' =>
      match k with
      | Panicking (Some v) site => [(lg, Errorf recover_format [AAny (Some v); AStack site])]
      | _ => []
      end
  | _ :: s' => settle_logs k s'
  end.

(** A failing job under all three wrappers, [Recover] outermost, invoked
    twice. *)
Definition layered_job : Job * shared :=
  nested [Recover 1%nat; DelayIfStillRunning 2%nat; SkipIfStillRunning 3%nat]
    (Base [5%nat] (Panic boom)) store0.
Definition layered_pool : config :=
  Config layered_job.2 [invoke layered_job.1; invoke layered_job.1].

(** ** What may be found in the sink *)

(** The three records of [chain.go]: [skip]; a delay of more than a
    minute; a panic with a value. *)
Definition genuine (e : Logger * logrec) : Prop :=
  e.2 = Infof skip_format []
  ∨ (∃ d, e.2 = Infof delay_format [ADuration d] ∧ Minute < d ≤ maxDuration)
  ∨ (∃ v site, e.2 = Errorf recover_format [AAny (Some v); AStack site]).

(** ** Lock order *)






Global Instance finished_dec th : Decision (finished th).
Proof.
  unfold finished. apply and_dec; [|apply _].
  destruct (ctl th); simpl; apply _.
Defined.



(** ** Under a [Recover] *)

(** The goroutine has not started the job wrapped by [Recover], or has
    the deferred function of that [Recover] at the bottom of its stack,
    or has returned from it. *)
Definition guarded (lg : Logger) (th : thread) : Prop :=
  (∃ j, th = invoke (RecoverJob lg j))
  ∨ last (stk th) = Some (FRecover lg)
  ∨ th = Thread Returning [].

(** ** Executions under [SkipIfStillRunning] *)

(** One invocation of a caller's job wrapped by [SkipIfStillRunning]. *)
Definition skipping (lg ch : nat) (spec : list act * exit) : Job :=
  SkipJob lg ch (Base spec.1 spec.2).

(** The side effects of the whole body of goroutine [t]. *)
Definition body_events (specs : list (list act * exit)) (t : tid) : list event :=
  match specs !! t with
  | Some spec => map (EvAct t) spec.1
  | None => []
  end.

(** Where an invocation is: before the [select] or in its default case
    with the record not yet written, in the job with part of the body
    done, over after the body, or over after the record. *)
Inductive place :=
  | Out
  | In (did : list act)
  | Ran
  | Skipped.

Definition place_of (ran skipped : list tid) (cur : option (tid * list act)) (t : tid) : place :=
  if decide (t ∈ ran) then Ran
  else if decide (t ∈ skipped) then Skipped
  else match cur with
       | Some (t', did) => if decide (t = t') then In did else Out
       | None => Out
       end.

Definition at_place (lg ch : nat) (spec : list act * exit) (pl : place) (th : thread) : Prop :=
  match pl with
  | Out => th = invoke (skipping lg ch spec) ∨ th = Thread (SkipDefault lg) []
  | In did =>
      ∃ rest, spec.1 = did ++ rest
        ∧ (th = Thread (Call (Base rest spec.2)) [FSkip ch tt]
           ∨ (rest = [] ∧ th = Thread (leave spec.2 [FSkip ch tt]) [FSkip ch tt]))
  | Ran => th = Thread (leave spec.2 [FSkip ch tt]) []
  | Skipped => th = Thread Returning []
  end.

(** The side effects of the body under way. *)
Definition under_way (cur : option (tid * list act)) : list event :=
  match cur with
  | Some (t, did) => map (EvAct t) did
  | None => []
  end.

(** The history is the bodies of [ran], whole and one after the other,
    then the body under way; the sink has one record for each of
    [skipped]; the token is in the channel when no body is under way;
    the goroutines are where that says; and none has found the token
    gone before another took it. *)
Definition accounted (lg ch : nat) (specs : list (list act * exit))
    (h0 : list event) (l0 : list (Logger * logrec))
    (c : config) (ran skipped : list tid) (cur : option (tid * list act)) : Prop :=
  NoDup (ran ++ skipped)
  ∧ hist (store c) = h0 ++ concat (body_events specs <$> ran) ++ under_way cur
  ∧ logs (store c) = l0 ++ replicate (length skipped) (lg, Infof skip_format [])
  ∧ chans (store c) !! ch = Some (Chan 1 (match cur with Some _ => [] | None => [tt] end))
  ∧ length (pool c) = length specs
  ∧ (∀ t, t ∈ ran ++ skipped → (t < length specs)%nat)
  ∧ (∀ t did, cur = Some (t, did) → (t ∉ ran ++ skipped) ∧ (t < length specs)%nat)
  ∧ (∀ t spec th, specs !! t = Some spec → pool c !! t = Some th →
                  at_place lg ch spec (place_of ran skipped cur t) th)
  ∧ (skipped ≠ [] ∨ (∃ t, pool c !! t = Some (Thread (SkipDefault lg) [])) →
     ran ≠ [] ∨ is_Some cur).

(** * Proofs *)

(** *** Counting the pending deferred calls *)

Lemma holds_cons f c g s :
  holds f (Thread c (g :: s)) = ((if decide (g = f) then 1 else 0) + holds f (Thread c s))%nat.
Proof. unfold holds; simpl. rewrite filter_cons. by case_decide. Qed.

Lemma holders_insert f p t th th' :
  p !! t = Some th →
  (holders f (<[t := th']> p) + holds f th = holders f p + holds f th')%nat.
Proof.
  unfold holders. revert t. induction p as [|x p IH]; intros [|t] H; simplify_eq/=.
  - lia.
  - specialize (IH _ H). lia.
Qed.

Lemma holders_lookup_le f p t th :
  p !! t = Some th → (holds f th ≤ holders f p)%nat.
Proof.
  unfold holders. revert t. induction p as [|x p IH]; intros [|t] H; simplify_eq/=.
  - lia.
  - specialize (IH _ H). lia.
Qed.

Lemma holders_two f p t1 t2 th1 th2 :
  t1 ≠ t2 → p !! t1 = Some th1 → p !! t2 = Some th2 →
  (holds f th1 + holds f th2 ≤ holders f p)%nat.
Proof.
  unfold holders. revert t1 t2.
  induction p as [|x p IH]; intros [|t1] [|t2] Hne H1 H2; simplify_eq/=.
  - pose proof (holders_lookup_le f p _ _ H2). unfold holders in *. lia.
  - pose proof (holders_lookup_le f p _ _ H1). unfold holders in *. lia.
  - assert (t1 ≠ t2) by congruence. specialize (IH _ _ H H1 H2). lia.
Qed.

Lemma inside_holds f th : inside f th ↔ (1 ≤ holds f th)%nat.
Proof.
  unfold inside, holds. destruct th as [c s]; simpl.
  induction s as [|g s IH]; simpl.
  - split; [by intros ?%elem_of_nil | simpl; lia].
  - rewrite filter_cons, elem_of_cons. case_decide; simpl; subst.
    + split; [lia | auto].
    + rewrite <- IH. naive_solver.
Qed.

(** *** What one step does to the mutexes and to the tokens *)

Lemma recv_Some ch sh v sh' :
  recv ch sh = Some (v, sh') →
  ∃ n vs, chans sh !! ch = Some (Chan n (v :: vs))
          ∧ sh' = set_chans (<[ch := Chan n vs]> (chans sh)) sh.
Proof. unfold recv. intros H. repeat case_match; simplify_eq. eauto. Qed.

Lemma send_Some ch v sh sh' :
  send ch v sh = Some sh' →
  ∃ c, chans sh !! ch = Some c ∧ (length (buf c) < cap c)%nat
       ∧ sh' = set_chans (<[ch := Chan (cap c) (buf c ++ [v])]> (chans sh)) sh.
Proof. unfold send. intros H. repeat case_match; simplify_eq. eauto. Qed.

Ltac tstep_inv H :=
  unfold tstep in H; simpl in H;
  repeat (case_match; simplify_eq/=);
  repeat match goal with
    | H : recv _ _ = Some _ |- _ => apply recv_Some in H as (? & ? & ? & ->)
    | H : send _ _ _ = Some _ |- _ => apply send_Some in H as (? & ? & ? & ->)
    end.

Lemma tstep_mutex t sh th sh' th' mu :
  tstep t sh th = Next sh' th' →
  (b2n (is_locked mu sh') + holds (FDelay mu) th = b2n (is_locked mu sh) + holds (FDelay mu) th')%nat.
Proof.
  intros H. destruct th as [c s].
  tstep_inv H; rewrite ?holds_cons; unfold is_locked in *; simpl;
    repeat case_decide; simplify_eq;
    repeat case_bool_decide; unfold holds; simpl; try lia; try set_solver.
Qed.

Lemma tstep_tokens t sh th sh' th' ch :
  tstep t sh th = Next sh' th' →
  (tokens ch sh' + holds (FSkip ch tt) th' = tokens ch sh + holds (FSkip ch tt) th)%nat
  ∧ slots ch sh' = slots ch sh.
Proof.
  intros H. destruct th as [c s].
  tstep_inv H; rewrite ?holds_cons; unfold tokens, slots; simpl;
    rewrite ?lookup_insert; repeat case_decide; simplify_eq/=;
    repeat match goal with v : unit |- _ => destruct v end;
    unfold holds; rewrite ?length_app; simpl;
    repeat case_match; simplify_eq/=; try (split; [lia | done]).
Qed.

(** *** The two invariants along an execution *)

Lemma step_mutex_inv c c' : step c c' → mutex_inv c → mutex_inv c'.
Proof.
  intros Hs I mu. specialize (I mu). destruct Hs as [sh p d Hd | sh p t th sh' th' Hl Ht]; simpl in *.
  - done.
  - pose proof (tstep_mutex _ _ _ _ _ mu Ht).
    pose proof (holders_insert (FDelay mu) p t th th' Hl). lia.
Qed.

Lemma step_token_inv c c' : step c c' → token_inv c → token_inv c'.
Proof.
  intros Hs I ch. specialize (I ch). destruct Hs as [sh p d Hd | sh p t th sh' th' Hl Ht]; simpl in *.
  - done.
  - destruct (tstep_tokens _ _ _ _ _ ch Ht) as [? Hslots].
    pose proof (holders_insert (FSkip ch tt) p t th th' Hl). rewrite Hslots. lia.
Qed.

Lemma holders_invoke f p :
  Forall (λ th, ∃ j, th = invoke j) p → holders f p = 0%nat.
Proof.
  unfold holders. induction 1 as [|th p [j ->] _ IH]; simpl; [done|].
  by rewrite IH.
Qed.

Lemma initial_mutex_inv c : initial c → mutex_inv c.
Proof.
  intros [[Hl _] Hp] mu. rewrite holders_invoke by done.
  unfold is_locked. rewrite Hl. by rewrite bool_decide_eq_false_2 by set_solver.
Qed.

Lemma initial_token_inv c : initial c → token_inv c.
Proof.
  intros [[_ Hc] Hp] ch. rewrite holders_invoke by done.
  unfold tokens, slots. destruct (chans (store c) !! ch) as [k|] eqn:E.
  - rewrite (Hc _ _ E). simpl. lia.
  - lia.
Qed.

Lemma reachable_mutex_inv c : reachable c → mutex_inv c.
Proof.
  intros (c0 & H0 & Hs). apply initial_mutex_inv in H0.
  induction Hs; eauto using step_mutex_inv.
Qed.

Lemma reachable_token_inv c : reachable c → token_inv c.
Proof.
  intros (c0 & H0 & Hs). apply initial_token_inv in H0.
  induction Hs; eauto using step_token_inv.
Qed.

Lemma reachable_step c c' : reachable c → step c c' → reachable c'.
Proof. intros (c0 & H0 & Hs) H. exists c0. split; [done|]. by eapply rtc_r. Qed.

Lemma sched_step_step m c c' : sched_step m c = Some c' → step c c'.
Proof.
  destruct c as [sh p]. destruct m as [d|t]; simpl; intros H.
  - case_decide; simplify_eq. by constructor.
  - destruct (p !! t) as [th|] eqn:E; [|done].
    destruct (tstep t sh th) eqn:Et; simplify_eq. by econstructor.
Qed.

Lemma sched_rtc ms c c' : sched ms c = Some c' → rtc step c c'.
Proof.
  revert c. induction ms as [|m ms IH]; intros c H; simpl in H.
  - simplify_eq. done.
  - destruct (sched_step m c) as [c1|] eqn:E; [|done].
    eapply rtc_l; [by apply (sched_step_step m) | by apply IH].
Qed.

Lemma reachable_rtc c c' : reachable c → rtc step c c' → reachable c'.
Proof. intros (c0 & H0 & Hs) H. exists c0. split; [done|]. by etrans. Qed.

Lemma reachable_after ms c : reachable c → reachable (after ms c).
Proof.
  intros H. unfold after. destruct (sched ms c) as [c'|] eqn:E; simpl; [|done].
  eapply reachable_rtc; [done|]. by apply (sched_rtc ms).
Qed.

Lemma after_rtc ms c : rtc step c (after ms c).
Proof.
  unfold after. destruct (sched ms c) as [c'|] eqn:E; simpl; [|done].
  by apply (sched_rtc ms).
Qed.

Lemma initial_reachable c : initial c → reachable c.
Proof. intros H. by exists c. Qed.

(** *** One holder at most *)

Lemma holders_none f p :
  holders f p = 0%nat → ∀ t th, p !! t = Some th → ¬ inside f th.
Proof.
  intros H t th Ht Hin. apply inside_holds in Hin.
  pose proof (holders_lookup_le f p t th Ht). lia.
Qed.

Lemma holders_unique f p ta tb tha thb :
  (holders f p ≤ 1)%nat → p !! ta = Some tha → p !! tb = Some thb →
  inside f tha → inside f thb → ta = tb.
Proof.
  intros H Ha Hb Ia%inside_holds Ib%inside_holds.
  destruct (decide (ta = tb)) as [|Hne]; [done|].
  pose proof (holders_two f p ta tb tha thb Hne Ha Hb). lia.
Qed.

Lemma holders_one f p :
  holders f p = 1%nat →
  ∃ t th, p !! t = Some th ∧ holds f th = 1%nat
          ∧ ∀ t' th', p !! t' = Some th' → t' ≠ t → ¬ inside f th'.
Proof.
  unfold holders. induction p as [|x p IH]; simpl; [done|]. intros H.
  destruct (holds f x) as [|k] eqn:E.
  - destruct (IH H) as (t & th & Ht & Hh & Ho).
    exists (S t), th. repeat split; try done.
    intros [|t'] th' Ht' Hne; simplify_eq/=.
    + rewrite inside_holds. lia.
    + apply (Ho t'); [done | congruence].
  - assert (k = 0%nat) as -> by lia.
    exists O, x. repeat split; try done.
    intros [|t'] th' Ht' Hne; simplify_eq/=.
    apply (holders_none f p) with t'; [|done]. unfold holders. lia.
Qed.

Lemma tokens_slots ch sh :
  slots ch sh = 1%nat → tokens ch sh = 0%nat → chans sh !! ch = Some (Chan 1 []).
Proof.
  unfold slots, tokens. destruct (chans sh !! ch) as [[n b]|]; simpl; [|done].
  intros -> Hb. by destruct b.
Qed.

Lemma tokens_full ch sh :
  slots ch sh = 1%nat → tokens ch sh = 1%nat → chans sh !! ch = Some (Chan 1 [tt]).
Proof.
  unfold slots, tokens. destruct (chans sh !! ch) as [[n b]|]; simpl; [|done].
  intros -> Hb. by destruct b as [|[] [|]].
Qed.

Lemma rtc_slots c c' ch :
  rtc step c c' → slots ch (store c') = slots ch (store c).
Proof.
  induction 1 as [|c1 c2 c3 Hs _ IH]; [done|]. rewrite IH.
  destruct Hs as [sh p d Hd | sh p t th sh' th' Hl Ht]; simpl; [done|].
  by destruct (tstep_tokens _ _ _ _ _ ch Ht).
Qed.

(** What a thread that holds the token of [ch] tells about the channel. *)
Lemma token_held c ch t th :
  token_inv c → pool c !! t = Some th → inside (FSkip ch tt) th →
  chans (store c) !! ch = Some (Chan 1 []) ∧ holders (FSkip ch tt) (pool c) = 1%nat.
Proof.
  intros I Ht Hin. destruct (I ch) as [Hsum Hle].
  apply inside_holds in Hin.
  pose proof (holders_lookup_le (FSkip ch tt) _ _ _ Ht).
  split; [apply tokens_slots|]; lia.
Qed.

Lemma token_free c ch :
  token_inv c → slots ch (store c) = 1%nat →
  (∀ t th, pool c !! t = Some th → ¬ inside (FSkip ch tt) th) →
  chans (store c) !! ch = Some (Chan 1 [tt]).
Proof.
  intros I Hs Hno. destruct (I ch) as [Hsum Hle].
  apply tokens_full; [done|].
  destruct (holders (FSkip ch tt) (pool c)) as [|k] eqn:E; [lia|].
  assert (k = 0%nat) as -> by lia.
  destruct (holders_one _ _ E) as (t & th & Ht & Hh & _).
  destruct (Hno t th Ht). apply inside_holds. lia.
Qed.


(** *** The loop of [Then] *)

Lemma Then_loop_nested ws j sh m :
  (m ≤ length ws)%nat →
  ∀ j' sh', nested (drop m ws) j sh = (j', sh') →
  Then_loop ws (seq (length ws - m) m) j' sh' = Some (nested ws j sh).
Proof.
  induction m as [|m IH]; intros Hm j' sh' E.
  - simpl. rewrite drop_0 in E. by rewrite E.
  - destruct (lookup_lt_is_Some_2 ws m) as [w Hw]; [lia|].
    change (seq (length ws - S m) (S m))
      with ((length ws - S m)%nat :: seq (S (length ws - S m)) m).
    cbn [Then_loop].
    replace (length ws - (length ws - S m) - 1)%nat with m by lia.
    rewrite Hw. destruct (w j' sh') as [j'' sh''] eqn:Ew.
    replace (S (length ws - S m)) with (length ws - m)%nat by lia.
    apply IH; [lia|].
    rewrite (drop_S _ _ _ Hw). simpl. by rewrite E.
Qed.

Lemma Then_nested ws j sh : Then (NewChain ws) j sh = Some (nested ws j sh).
Proof.
  unfold Then; simpl.
  destruct (nested (drop (length ws) ws) j sh) as [j' sh'] eqn:E.
  pose proof (Then_loop_nested ws j sh (length ws) (le_n _) _ _ E) as H.
  rewrite Nat.sub_diag in H. rewrite drop_all in E. simpl in E. by simplify_eq.
Qed.

Lemma nested_store ws j sh :
  Forall (λ w : JobWrapper, ∀ j sh, (w j sh).2 = sh) ws → (nested ws j sh).2 = sh.
Proof.
  induction 1 as [|w ws Hw _ IH]; simpl; [done|].
  destruct (nested ws j sh) as [j' sh'] eqn:E. simpl in IH. subst sh'. apply Hw.
Qed.

(** *** Runs of one goroutine *)

Lemma run_S env n t sh th :
  run env (S n) t sh th =
  match tstep t (env n sh) th with
  | Next sh' th' => run env n t sh' th'
  | _ => None
  end.
Proof. done. Qed.

Lemma run_last env n t sh th :
  run env (S n) t sh th =
  match run (λ k, env (S k)) n t sh th with
  | Some (sh', th') =>
      match tstep t (env O sh') th' with
      | Next sh'' th'' => Some (sh'', th'')
      | _ => None
      end
  | None => None
  end.
Proof.
  revert sh th. induction n as [|n IH]; intros sh th.
  - simpl. by destruct (tstep t (env O sh) th).
  - rewrite run_S. rewrite (run_S (λ k, env (S k))).
    destruct (tstep t (env (S n) sh) th); auto.
Qed.

(** *** Applying a wrapper leaves the store idle *)

Lemma idle_store0 : idle store0.
Proof. split; [done|]. intros ch c H. simpl in H. by rewrite lookup_empty in H. Qed.

Lemma Recover_idle lg j sh : idle sh → idle (Recover lg j sh).2.
Proof. done. Qed.

Lemma DelayIfStillRunning_idle lg j sh :
  idle sh → idle (DelayIfStillRunning lg j sh).2
            ∧ is_locked (next sh) (DelayIfStillRunning lg j sh).2 = false.
Proof.
  intros [Hl Hc]. unfold DelayIfStillRunning, idle, is_locked; simpl. rewrite Hl.
  split; [split; [set_solver | done]|].
  apply bool_decide_eq_false_2. set_solver.
Qed.

Lemma SkipIfStillRunning_idle lg j sh :
  idle sh → idle (SkipIfStillRunning lg j sh).2
            ∧ chans (SkipIfStillRunning lg j sh).2 !! next sh = Some (Chan 1 [tt]).
Proof.
  intros [Hl Hc]. unfold SkipIfStillRunning, send; simpl.
  rewrite lookup_insert_eq. simpl. rewrite insert_insert_eq.
  split; [split; [done|]|]; simpl.
  - intros ch c. rewrite lookup_insert. case_decide; [naive_solver | apply Hc].
  - by rewrite lookup_insert_eq.
Qed.

Lemma wrappers_idle lg :
  idle_wrapper (Recover lg) ∧ idle_wrapper (DelayIfStillRunning lg)
  ∧ idle_wrapper (SkipIfStillRunning lg).
Proof.
  split; [|split]; intros j sh H.
  - done.
  - by apply DelayIfStillRunning_idle.
  - by apply SkipIfStillRunning_idle.
Qed.

Lemma nested_idle ws j sh :
  Forall idle_wrapper ws → idle sh → idle (nested ws j sh).2.
Proof.
  intros Hws Hsh. induction Hws as [|w ws Hw _ IH]; simpl; [done|].
  destruct (nested ws j sh) as [j' sh']. by apply Hw.
Qed.

(** Registration, then any number of invocations: a pool to start from. *)
Lemma Then_initial ws j sh j' sh' n :
  Forall idle_wrapper ws → idle sh →
  Then (NewChain ws) j sh = Some (j', sh') →
  initial (Config sh' (replicate n (invoke j'))).
Proof.
  intros Hws Hsh. rewrite Then_nested. intros [= E].
  pose proof (nested_idle ws j sh Hws Hsh) as Hi. rewrite E in Hi.
  split; [done|]. simpl. apply Forall_replicate. by eexists.
Qed.

Lemma skip_pool_initial : initial skip_pool.
Proof.
  split.
  - apply SkipIfStillRunning_idle, idle_store0.
  - repeat constructor; by eexists.
Qed.

Lemma delay_pool_initial : initial delay_pool.
Proof.
  split.
  - apply DelayIfStillRunning_idle, idle_store0.
  - repeat constructor; by eexists.
Qed.

Lemma inside_top f c s : inside f (Thread c (f :: s)).
Proof. unfold inside; simpl. apply elem_of_cons. by left. Qed.

Create HintDb chain.
#[global] Hint Resolve initial_reachable reachable_after skip_pool_initial
  delay_pool_initial inside_top after_rtc : chain.

(** *** Following a schedule *)

Lemma sched_Go t ms sh p th sh' th' :
  p !! t = Some th → tstep t sh th = Next sh' th' →
  sched (Go t :: ms) (Config sh p) = sched ms (Config sh' (<[t := th']> p)).
Proof. intros Hl Ht. simpl. by rewrite Hl, Ht. Qed.

Lemma sched_app ms1 ms2 c :
  sched (ms1 ++ ms2) c = sched ms1 c ≫= sched ms2.
Proof.
  revert c. induction ms1 as [|m ms1 IH]; intros c; simpl; [done|].
  destruct (sched_step m c); simpl; [apply IH | done].
Qed.

Lemma sched_app_Some ms1 ms2 c c1 :
  sched ms1 c = Some c1 → sched (ms1 ++ ms2) c = sched ms2 c1.
Proof. intros H. by rewrite sched_app, H. Qed.

Lemma lookup_insert_same (p : list thread) t th th' :
  p !! t = Some th → <[t := th']> p !! t = Some th'.
Proof. intros H. apply list_lookup_insert_eq. by eapply lookup_lt_Some. Qed.

Lemma emits_nil sh : emits [] sh = sh.
Proof. destruct sh. unfold emits; simpl. by rewrite app_nil_r. Qed.

Lemma emits_emit e es sh : emits es (emit e sh) = emits (e :: es) sh.
Proof. unfold emits, emit; simpl. by rewrite <- app_assoc. Qed.

(** The body of a caller's job, one side effect at a step. *)
Lemma sched_Base t b f s sh p :
  p !! t = Some (Thread (Call (Base b f)) s) →
  sched (replicate (length b) (Go t)) (Config sh p)
  = Some (Config (emits (map (EvAct t) b) sh) (<[t := Thread (Call (Base [] f)) s]> p)).
Proof.
  revert sh p. induction b as [|a b IH]; intros sh p Hl.
  - simpl. by rewrite emits_nil, list_insert_id.
  - cbn [length replicate].
    erewrite sched_Go; [|done|reflexivity].
    rewrite IH by (by eapply lookup_insert_same).
    by rewrite list_insert_insert_eq, emits_emit.
Qed.

(** Giving the token back. *)
Lemma token_return c ch t k v s :
  token_inv c → pool c !! t = Some (Thread k (FSkip ch v :: s)) → leaving k →
  tstep t (store c) (Thread k (FSkip ch v :: s))
  = Next (set_chans (<[ch := Chan 1 [tt]]> (chans (store c))) (store c)) (Thread k s).
Proof.
  intros I Ht Hk. destruct v.
  destruct (token_held c ch t _ I Ht (inside_top _ _ _)) as [Hch _].
  destruct k; try done; cbn [tstep ctl stk]; unfold send; by rewrite Hch.
Qed.

(** Finding the token gone, and finding it there. *)
Lemma select_default t sh lg ch j s :
  chans sh !! ch = Some (Chan 1 []) →
  tstep t sh (Thread (Call (SkipJob lg ch j)) s) = Next sh (Thread (SkipDefault lg) s).
Proof. intros H. cbn [tstep ctl stk]. unfold recv. by rewrite H. Qed.

Lemma select_take t sh lg ch j s :
  chans sh !! ch = Some (Chan 1 [tt]) →
  tstep t sh (Thread (Call (SkipJob lg ch j)) s)
  = Next (set_chans (<[ch := Chan 1 []]> (chans sh)) sh) (Thread (Call j) (FSkip ch tt :: s)).
Proof. intros H. cbn [tstep ctl stk]. unfold recv. by rewrite H. Qed.

Lemma leaving_leave f site : leaving (leave f site).
Proof. by destruct f. Qed.

Lemma tstep_leave_FSkip t sh f site ch v s :
  tstep t sh (Thread (leave f site) (FSkip ch v :: s))
  = match send ch v sh with
    | Some sh' => Next sh' (Thread (leave f site) s)
    | None => Blocked
    end.
Proof. by destruct f. Qed.

Lemma tstep_leave_FDelay t sh f site mu s :
  tstep t sh (Thread (leave f site) (FDelay mu :: s))
  = if is_locked mu sh
    then Next (emit (EvUnlock t mu) (set_locked (locked sh ∖ {[mu]}) sh)) (Thread (leave f site) s)
    else Fatal.
Proof. by destruct f. Qed.

Lemma tstep_Base_nil t sh f s :
  tstep t sh (Thread (Call (Base [] f)) s) = Next sh (Thread (leave f s) s).
Proof. done. Qed.

(** *** The mutex and its holder *)

(** What a goroutine with a pending unlock of [mu] tells about [mu]. *)
Lemma mutex_held c mu t th :
  mutex_inv c → pool c !! t = Some th → inside (FDelay mu) th →
  is_locked mu (store c) = true ∧ holders (FDelay mu) (pool c) = 1%nat.
Proof.
  intros I Ht Hin. specialize (I mu). apply inside_holds in Hin.
  pose proof (holders_lookup_le (FDelay mu) _ _ _ Ht).
  destruct (is_locked mu (store c)); simpl in I; [done | lia].
Qed.

Lemma unlock_step c mu t k s :
  mutex_inv c → pool c !! t = Some (Thread k (FDelay mu :: s)) → leaving k →
  tstep t (store c) (Thread k (FDelay mu :: s))
  = Next (emit (EvUnlock t mu) (set_locked (locked (store c) ∖ {[mu]}) (store c))) (Thread k s).
Proof.
  intros I Ht Hk.
  destruct (mutex_held c mu t _ I Ht (inside_top _ _ _)) as [Hl _].
  destruct k; try done; cbn [tstep ctl stk]; by rewrite Hl.
Qed.

Lemma is_locked_unlock mu e sh :
  is_locked mu (emit e (set_locked (locked sh ∖ {[mu]}) sh)) = false.
Proof. unfold is_locked; simpl. apply bool_decide_eq_false_2. set_solver. Qed.

Lemma is_locked_lock mu e sh :
  is_locked mu (emit e (set_locked ({[mu]} ∪ locked sh) sh)) = true.
Proof. unfold is_locked; simpl. apply bool_decide_eq_true_2. set_solver. Qed.

(** *** One at a time, in the order of the lock *)

Lemma tstep_leave_nil t sh f site : tstep t sh (Thread (leave f site) []) = Halted.
Proof. by destruct f. Qed.

Section Serial.

Context (lg mu : nat) (specs : list (list act * exit)).

Lemma status_of_over order cur t : t ∈ order → status_of order cur t = Over.
Proof. intros H. unfold status_of. by rewrite decide_True. Qed.

Lemma status_of_busy order t did :
  t ∉ order → status_of order (Some (t, did)) t = Busy did.
Proof. intros H. unfold status_of. by rewrite decide_False, decide_True. Qed.

Lemma status_of_other order t0 did t :
  t ≠ t0 → status_of order (Some (t0, did)) t = status_of order None t.
Proof. intros H. unfold status_of. case_decide; [done|]. by rewrite decide_False. Qed.

Lemma status_of_snoc order cur t0 t :
  t ≠ t0 → status_of (order ++ [t0]) cur t = status_of order cur t.
Proof.
  intros H. unfold status_of.
  destruct (decide (t ∈ order)).
  - rewrite decide_True; [done|]. apply elem_of_app. by left.
  - rewrite decide_False; [done|]. rewrite elem_of_app, list_elem_of_singleton. tauto.
Qed.

Lemma at_status_update (p : list thread) order cur order' cur' t0 th0 spec0 th0' :
  (∀ t spec th, specs !! t = Some spec → p !! t = Some th →
                at_status lg mu spec (status_of order cur t) th) →
  p !! t0 = Some th0 → specs !! t0 = Some spec0 →
  at_status lg mu spec0 (status_of order' cur' t0) th0' →
  (∀ t, t ≠ t0 → status_of order' cur' t = status_of order cur t) →
  ∀ t spec th, specs !! t = Some spec → <[t0 := th0']> p !! t = Some th →
               at_status lg mu spec (status_of order' cur' t) th.
Proof.
  intros Hall Hp Hs Hnew Hsame t spec th Hspec Hl.
  destruct (decide (t = t0)) as [->|Hne].
  - rewrite (lookup_insert_same _ _ _ _ Hp) in Hl. by simplify_eq.
  - rewrite list_lookup_insert_ne in Hl by done. rewrite Hsame by done. eauto.
Qed.

Lemma serial_tick h0 sh p d order cur :
  serial lg mu specs h0 (Config sh p) order cur →
  serial lg mu specs h0 (Config (set_clock (clock sh + d) sh) p) order cur.
Proof. done. Qed.

Ltac serial_split :=
  unfold serial; cbn [store pool]; rewrite ?length_insert; split_and!; try done.

Lemma serial_step h0 c c' order cur :
  serial lg mu specs h0 c order cur → step c c' →
  ∃ order' cur', serial lg mu specs h0 c' order' cur'.
Proof.
  intros Hser Hs.
  destruct Hs as [sh p d Hd | sh p t th sh' th' Hp Ht].
  { exists order, cur. by apply serial_tick. }
  destruct Hser as (Hnd & Hh & Hl & Hlen & Hord & Hcur & Hth). cbn [store pool] in *.
  destruct (lookup_lt_is_Some_2 specs t) as [spec Hspec].
  { rewrite <- Hlen. by eapply lookup_lt_Some. }
  pose proof (Hth t spec th Hspec Hp) as Hst.
  pose proof (at_status_update p order cur) as Hupd.
  destruct (decide (t ∈ order)) as [Hin|Hnin].
  { rewrite status_of_over in Hst by done. simpl in Hst. subst th.
    by rewrite tstep_leave_nil in Ht. }
  assert (Hlt : (t < length specs)%nat) by by eapply lookup_lt_Some.
  destruct cur as [[t' did]|].
  - assert (Hlk : is_locked mu sh = true).
    { rewrite Hl. apply bool_decide_eq_true_2. eauto. }
    destruct (decide (t = t')) as [->|Hne].
    + rewrite status_of_busy in Hst by done.
      destruct Hst as (rest & Hsplit & [(-> & start & ->) | [-> | (-> & ->)]]).
      * (* time.Since *)
        cbn [tstep ctl stk] in Ht. simplify_eq.
        exists order, (Some (t', [])). serial_split.
        -- by case_decide.
        -- rewrite bool_decide_eq_true_2 by eauto. rewrite <- Hlk. by case_decide.
        -- eapply Hupd; [done..| |done].
           rewrite status_of_busy by done. exists spec.1. split; [done|]. right. by left.
      * destruct rest as [|a rest].
        -- rewrite tstep_Base_nil in Ht. simplify_eq.
           exists order, (Some (t', did)). serial_split.
           eapply Hupd; [done..| |done].
           rewrite status_of_busy by done. exists []. split; [done|]. right. by right.
        -- cbn [tstep ctl stk] in Ht. simplify_eq.
           exists order, (Some (t', did ++ [a])). serial_split.
           ++ simpl. rewrite Hh. simpl. rewrite map_app. simpl.
              by rewrite <- !app_assoc.
           ++ intros ? ? [= <- _]. eauto.
           ++ eapply Hupd; [done..| |].
              ** rewrite status_of_busy by done. exists rest.
                 split; [by rewrite <- app_assoc|]. right. by left.
              ** intros t2 Hne. by rewrite !status_of_other.
      * rewrite tstep_leave_FDelay, Hlk in Ht. simplify_eq.
        exists (order ++ [t']), None. serial_split.
        -- apply NoDup_app. split; [done|]. split; [|apply NoDup_singleton].
           intros x Hx ->%list_elem_of_singleton. done.
        -- assert (Hturn : turn mu specs t'
                           = EvLock t' mu :: map (EvAct t') did ++ [EvUnlock t' mu]).
           { unfold turn. by rewrite Hspec, Hsplit, app_nil_r. }
           simpl. rewrite Hh, fmap_app, concat_app. simpl.
           rewrite Hturn, !app_nil_r. simpl. by rewrite <- !app_assoc.
        -- rewrite is_locked_unlock. symmetry. apply bool_decide_eq_false_2. by intros [? ?].
        -- intros x [Hx | ->%list_elem_of_singleton]%elem_of_app; [by apply Hord|].
           by eapply lookup_lt_Some.
        -- eapply Hupd; [done..| |].
           ++ rewrite status_of_over; [done|]. apply elem_of_app. right. by left.
           ++ intros t2 Hne. rewrite status_of_snoc by done. by rewrite status_of_other.
    + rewrite status_of_other in Hst by done. unfold status_of in Hst.
      rewrite decide_False in Hst by done.
      destruct Hst as [-> | (start & ->)].
      * unfold invoke, delayed in Ht. cbn [tstep ctl stk] in Ht. simplify_eq.
        exists order, (Some (t', did)). serial_split.
        eapply Hupd; [done..| |done].
        rewrite status_of_other by done. unfold status_of. rewrite decide_False by done.
        right. by eexists.
      * cbn [tstep ctl stk] in Ht. by rewrite Hlk in Ht.
  - assert (Hlk : is_locked mu sh = false).
    { rewrite Hl. apply bool_decide_eq_false_2. by intros [? ?]. }
    unfold status_of in Hst. rewrite decide_False in Hst by done.
    destruct Hst as [-> | (start & ->)].
    + unfold invoke, delayed in Ht. cbn [tstep ctl stk] in Ht. simplify_eq.
      exists order, None. serial_split.
      eapply Hupd; [done..| |done].
      unfold status_of. rewrite decide_False by done. right. by eexists.
    + cbn [tstep ctl stk] in Ht. rewrite Hlk in Ht. simplify_eq.
      exists order, (Some (t, [])). serial_split.
      * simpl. rewrite Hh. simpl. by rewrite app_nil_r, <- app_assoc.
      * rewrite is_locked_lock. symmetry. apply bool_decide_eq_true_2. eauto.
      * intros ? ? [= <- _]. done.
      * eapply Hupd; [done..| |].
        -- rewrite status_of_busy by done. exists spec.1. split; [done|]. left. eauto.
        -- intros t2 Hne. by rewrite status_of_other.
Qed.

Lemma serial_initial sh0 :
  is_locked mu sh0 = false →
  serial lg mu specs (hist sh0) (Config sh0 (invoke ∘ delayed lg mu <$> specs)) [] None.
Proof.
  intros Hfree. unfold serial; cbn [store pool]. split_and!; try done.
  - apply NoDup_nil_2.
  - simpl. by rewrite app_nil_r.
  - by rewrite length_fmap.
  - by intros t ?%elem_of_nil.
  - intros t spec th Hspec Hl. rewrite list_lookup_fmap, Hspec in Hl.
    simplify_eq/=. by left.
Qed.

Lemma serial_rtc h0 c c' order cur :
  serial lg mu specs h0 c order cur → rtc step c c' →
  ∃ order' cur', serial lg mu specs h0 c' order' cur'.
Proof.
  intros Hser Hs. revert order cur Hser.
  induction Hs as [|c1 c2 c3 Hstep _ IH]; intros order cur Hser; [eauto|].
  destruct (serial_step _ _ _ _ _ Hser Hstep) as (order' & cur' & Hser').
  eauto.
Qed.

Lemma serial_finished h0 c order cur t th :
  serial lg mu specs h0 c order cur → pool c !! t = Some th →
  finished th ↔ t ∈ order.
Proof.
  intros (Hnd & Hh & Hl & Hlen & Hord & Hcur & Hth) Hp.
  destruct (lookup_lt_is_Some_2 specs t) as [spec Hspec].
  { rewrite <- Hlen. by eapply lookup_lt_Some. }
  pose proof (Hth t spec th Hspec Hp) as Hst. unfold status_of in Hst.
  destruct (decide (t ∈ order)) as [Hin|Hnin].
  - simpl in Hst. subst th. split; [done|]. intros _. split; [apply leaving_leave | done].
  - split; [|done]. intros [Hk Hs]. exfalso.
    destruct cur as [[t' did]|]; [destruct (decide (t = t'))|]; simpl in Hst.
    + destruct Hst as (rest & _ & [(_ & start & ->) | [-> | (_ & ->)]]); done.
    + destruct Hst as [-> | (start & ->)]; done.
    + destruct Hst as [-> | (start & ->)]; done.
Qed.

Lemma serial_quiescent h0 c order cur :
  serial lg mu specs h0 c order cur → quiescent c →
  cur = None ∧ ∀ t, (t < length specs)%nat → t ∈ order.
Proof.
  intros (Hnd & Hh & Hl & Hlen & Hord & Hcur & Hth) Hq.
  assert (Hcan : ∀ t, (t < length specs)%nat → ∃ spec th,
             specs !! t = Some spec ∧ pool c !! t = Some th
             ∧ at_status lg mu spec (status_of order cur t) th).
  { intros t Ht. destruct (lookup_lt_is_Some_2 specs t Ht) as [spec Hspec].
    destruct (lookup_lt_is_Some_2 (pool c) t) as [th Hp]; [by rewrite Hlen|].
    exists spec, th. eauto. }
  destruct cur as [[t' did]|].
  - exfalso. destruct (Hcur t' did eq_refl) as [Hnin Hlt].
    destruct (Hcan t' Hlt) as (spec & th & Hspec & Hp & Hst).
    rewrite status_of_busy in Hst by done.
    assert (Hlk : is_locked mu (store c) = true).
    { rewrite Hl. apply bool_decide_eq_true_2. eauto. }
    destruct Hst as (rest & _ & [(_ & start & ->) | [-> | (_ & ->)]]).
    + by eapply (Hq t' _ Hp).
    + destruct rest; by eapply (Hq t' _ Hp).
    + eapply (Hq t' _ Hp). by rewrite tstep_leave_FDelay, Hlk.
  - split; [done|]. intros t Ht.
    destruct (decide (t ∈ order)) as [|Hnin]; [done|]. exfalso.
    destruct (Hcan t Ht) as (spec & th & Hspec & Hp & Hst).
    unfold status_of in Hst. rewrite decide_False in Hst by done.
    assert (Hlk : is_locked mu (store c) = false).
    { rewrite Hl. apply bool_decide_eq_false_2. by intros [? ?]. }
    destruct Hst as [-> | (start & ->)].
    + by eapply (Hq t _ Hp).
    + eapply (Hq t _ Hp). cbn [tstep ctl stk]. by rewrite Hlk.
Qed.

End Serial.

(** *** Every step of a goroutine uses up some of what is left *)

Lemma tstep_weight t sh th sh' th' :
  tstep t sh th = Next sh' th' → (weight th' < weight th)%nat.
Proof.
  intros H. destruct th as [k s].
  tstep_inv H; unfold weight, leave; simpl; repeat case_match; simplify_eq/=; lia.
Qed.

Lemma total_weight_insert p t th th' :
  p !! t = Some th →
  (total_weight (<[t := th']> p) + weight th = total_weight p + weight th')%nat.
Proof.
  unfold total_weight. revert t. induction p as [|x p IH]; intros [|t] H; simplify_eq/=.
  - lia.
  - specialize (IH _ H). lia.
Qed.

Lemma step_weight c c' :
  step c c' → pool c' = pool c ∨ (total_weight (pool c') < total_weight (pool c))%nat.
Proof.
  intros [sh p d Hd | sh p t th sh' th' Hl Ht]; simpl; [by left | right].
  pose proof (tstep_weight _ _ _ _ _ Ht).
  pose proof (total_weight_insert p t th th' Hl). lia.
Qed.

(** *** Whole invocations of [Recover] and [DelayIfStillRunning] *)

Lemma Recover_run env n t lg j sh base sh' c' :
  run (λ k, env (S k)) n t (env (S n) sh) (Thread (Call j) (FRecover lg :: base))
    = Some (sh', Thread c' (FRecover lg :: base)) →
  leaving c' →
  run env (S (S n)) t sh (Thread (Call (RecoverJob lg j)) base)
    = Some (match c' with
            | Panicking (Some v) site =>
                log lg (Errorf recover_format [AAny (Some v); AStack site]) (env O sh')
            | _ => env O sh'
            end, Thread Returning base).
Proof.
  intros Hin Hc. rewrite run_S. cbn [tstep ctl stk].
  rewrite run_last, Hin.
  destruct c' as [| | | | |[v|] site]; try done.
Qed.

Lemma Delay_run env t lg mu j s sh :
  run env 3 t sh (Thread (Call (DelayJob lg mu j)) s) =
  let arrived := env 2%nat sh in
  let free := env 1%nat arrived in
  if is_locked mu free then None
  else
    let held := emit (EvLock t mu) (set_locked ({[mu]} ∪ locked free) free) in
    let seen := env O held in
    let wait := Since (clock seen) (clock arrived) in
    Some (if decide (wait > Minute)
          then log lg (Infof delay_format [ADuration wait]) seen else seen,
          Thread (Call j) (FDelay mu :: s)).
Proof.
  rewrite run_S. cbn [tstep ctl stk]. rewrite run_S. cbn [tstep ctl stk].
  destruct (is_locked mu (env 1%nat (env 2%nat sh))); [done|].
  rewrite run_S. by cbn [tstep ctl stk run].
Qed.

(** *** Checks on small programs *)

(** The last wrapper is applied first (it gets the first location), and
    ends up innermost. *)
Example Then_three :
  fst <$> Then (NewChain [Recover 1%nat; DelayIfStillRunning 2%nat; SkipIfStillRunning 3%nat])
               (Base [] Return) store0
  = Some (RecoverJob 1%nat (DelayJob 2%nat 1%nat (SkipJob 3%nat O (Base [] Return)))).
Proof. reflexivity. Qed.

(** The second invocation arrives while the first is running: it is
    skipped, the first runs to its end and gives the token back. *)
Example skip_overlapping :
  (λ c, (logs (store c), hist (store c), pool c, chans (store c) !! O))
    <$> sched [Go O; Go 1%nat; Go 1%nat; Go O; Go O; Go O; Go O] skip_pool
  = Some ([(1%nat, Infof skip_format [])],
          [EvAct O 5%nat; EvAct O 6%nat],
          [Thread (Panicking boom [FSkip O tt]) []; Thread Returning []],
          Some (Chan 1 [tt])).
Proof. reflexivity. Qed.

(** One invocation after the other, the first failing: both run, nothing
    is skipped. *)
Example skip_sequential :
  (λ c, (logs (store c), hist (store c)))
    <$> sched (replicate 5 (Go O) ++ replicate 5 (Go 1%nat)) skip_pool
  = Some ([], [EvAct O 5%nat; EvAct O 6%nat; EvAct 1%nat 5%nat; EvAct 1%nat 6%nat]).
Proof. reflexivity. Qed.

(** The second invocation waits sixty-one seconds for the first: it runs
    after it, and its wait is logged. *)
Example delay_overlapping :
  (λ c, (logs (store c), hist (store c)))
    <$> sched ([Go O; Go O; Go O; Go 1%nat; Tick (61 * 1000000000)]
               ++ replicate 4 (Go O) ++ replicate 6 (Go 1%nat)) delay_pool
  = Some ([(1%nat, Infof delay_format [ADuration 61000000000])],
          [EvLock O O; EvAct O 5%nat; EvAct O 6%nat; EvUnlock O O;
           EvLock 1%nat O; EvAct 1%nat 5%nat; EvAct 1%nat 6%nat; EvUnlock 1%nat O]).
Proof. reflexivity. Qed.

(** While the first holds the mutex the second cannot pass [Lock]. *)
Example delay_blocked :
  sched [Go O; Go O; Go 1%nat; Go 1%nat] delay_pool = None.
Proof. reflexivity. Qed.

(** A wait of exactly one minute is not logged. *)
Example delay_threshold :
  (λ c, logs (store c))
    <$> sched ([Go O; Go O; Go O; Go 1%nat; Tick Minute]
               ++ replicate 4 (Go O) ++ replicate 6 (Go 1%nat)) delay_pool
  = Some [].
Proof. reflexivity. Qed.

(** ** The claims *)

(** C1. In every execution of a pool of invocations, for every mutex
    [mu] of [DelayIfStillRunning]: at most one goroutine is inside the
    wrapped job; while one is, a goroutine arriving at [Lock] is blocked;
    and every step of a goroutine uses up some of the work that is left,
    so that no goroutine runs for ever.  When the wrapped jobs are jobs
    of the caller, the history is made of whole turns (lock, the body of
    the job, unlock) one after the other, in the order in which the lock
    was acquired, followed by the turn under way; the invocations that
    are over are those whose turn is in the history; and when no
    goroutine can move, every invocation has had its turn: none is
    dropped. *)
Theorem Delay_one_at_a_time :
  (∀ c mu, reachable c →
     (∀ ta tb tha thb,
        pool c !! ta = Some tha → pool c !! tb = Some thb →
        inside (FDelay mu) tha → inside (FDelay mu) thb → ta = tb)
     ∧ (∀ t1 th1, pool c !! t1 = Some th1 → inside (FDelay mu) th1 →
          ∀ t2 lg start j s,
            tstep t2 (store c) (Thread (DelayLock lg mu start j) s) = Blocked)
     ∧ (∀ c', step c c' →
          pool c' = pool c ∨ (total_weight (pool c') < total_weight (pool c))%nat))
  ∧ (∀ lg mu specs sh0 c,
       is_locked mu sh0 = false →
       rtc step (Config sh0 (invoke ∘ delayed lg mu <$> specs)) c →
       ∃ order cur,
         NoDup order
         ∧ hist (store c) = hist sh0 ++ concat (turn mu specs <$> order) ++ partial mu cur
         ∧ (∀ t did, cur = Some (t, did) →
              (t ∉ order) ∧ ∃ spec rest, specs !! t = Some spec ∧ spec.1 = did ++ rest)
         ∧ (∀ t th, pool c !! t = Some th → (finished th ↔ t ∈ order))
         ∧ (quiescent c → cur = None ∧ ∀ t, (t < length specs)%nat → t ∈ order)).
Proof.
  split.
  - intros c mu Hr. pose proof (reachable_mutex_inv _ Hr) as I. split_and!.
    + intros ta tb tha thb Ha Hb Ia Ib.
      eapply (holders_unique (FDelay mu) (pool c)); [|done..].
      rewrite (I mu). by destruct (is_locked mu (store c)); simpl; lia.
    + intros t1 th1 H1 Hin t2 lg start j s.
      destruct (mutex_held c mu t1 th1 I H1 Hin) as [Hl _].
      cbn [tstep ctl stk]. by rewrite Hl.
    + intros c'. apply step_weight.
  - intros lg mu specs sh0 c Hfree Hs.
    destruct (serial_rtc _ _ _ _ _ _ _ _ (serial_initial lg mu specs sh0 Hfree) Hs)
      as (order & cur & Hser).
    exists order, cur. split_and!.
    + apply Hser.
    + apply Hser.
    + intros t did ->.
      destruct Hser as (_ & _ & _ & Hlen & _ & Hcur & Hth).
      destruct (Hcur t did eq_refl) as [Hnin Hlt]. split; [done|].
      destruct (lookup_lt_is_Some_2 specs t Hlt) as [spec Hspec].
      destruct (lookup_lt_is_Some_2 (pool c) t) as [th Hp]; [by rewrite Hlen|].
      pose proof (Hth t spec th Hspec Hp) as Hst.
      rewrite status_of_busy in Hst by done. destruct Hst as (rest & Hsplit & _).
      eauto.
    + intros t th Hp. by eapply serial_finished.
    + by eapply serial_quiescent.
Qed.

Lemma Delay_one_at_a_time_witness :
  reachable (after [Go O; Go O; Go 1%nat] delay_pool)
  ∧ pool (after [Go O; Go O; Go 1%nat] delay_pool) !! O
    = Some (Thread (DelaySince 1%nat O 0 (Base [5%nat; 6%nat] (Panic boom))) [FDelay O])
  ∧ inside (FDelay O) (Thread (DelaySince 1%nat O 0 (Base [5%nat; 6%nat] (Panic boom))) [FDelay O])
  ∧ tstep 1%nat (store (after [Go O; Go O; Go 1%nat] delay_pool))
      (Thread (DelayLock 1%nat O 0 (Base [5%nat; 6%nat] (Panic boom))) []) = Blocked
  ∧ is_locked O delay_job.2 = false
  ∧ rtc step delay_pool (after (replicate 7 (Go O) ++ replicate 7 (Go 1%nat)) delay_pool)
  ∧ ∃ order cur,
      hist (store (after (replicate 7 (Go O) ++ replicate 7 (Go 1%nat)) delay_pool))
      = hist delay_job.2
        ++ concat (turn O [([5%nat; 6%nat], Panic boom); ([5%nat; 6%nat], Panic boom)] <$> order)
        ++ partial O cur.
Proof.
  assert (Hr : reachable (after [Go O; Go O; Go 1%nat] delay_pool)).
  { eauto with chain. }
  assert (H1 : pool (after [Go O; Go O; Go 1%nat] delay_pool) !! O
    = Some (Thread (DelaySince 1%nat O 0 (Base [5%nat; 6%nat] (Panic boom))) [FDelay O]))
    by reflexivity.
  assert (Hin : inside (FDelay O)
                  (Thread (DelaySince 1%nat O 0 (Base [5%nat; 6%nat] (Panic boom))) [FDelay O])).
  { auto with chain. }
  assert (Hfree : is_locked O delay_job.2 = false) by reflexivity.
  assert (Hs : rtc step delay_pool (after (replicate 7 (Go O) ++ replicate 7 (Go 1%nat)) delay_pool)).
  { auto with chain. }
  split; [exact Hr|]. split; [exact H1|]. split; [exact Hin|].
  split.
  { exact (proj1 (proj2 (proj1 Delay_one_at_a_time _ O Hr)) _ _ H1 Hin _ _ _ _ _). }
  split; [exact Hfree|]. split; [exact Hs|].
  destruct (proj2 Delay_one_at_a_time 1%nat O
              [([5%nat; 6%nat], Panic boom); ([5%nat; 6%nat], Panic boom)]
              delay_job.2 _ Hfree Hs) as (order & cur & _ & Hh & _).
  exists order, cur. exact Hh.
Defined.

(** C2. For every sequence of wrappers [w1; ...; wn] and every job [j],
    [Then] of the chain is the nested application [w1 (w2 (... (wn j)))]:
    the first wrapper of the sequence is the outermost layer, whatever
    the length of the sequence, and the loop never indexes outside the
    slice.  For three wrappers it is [m1 (m2 (m3 j))], [m3] applied
    first. *)
Theorem Then_first_outermost (ws : list JobWrapper) (j : Job) (sh : shared) :
  Then (NewChain ws) j sh = Some (nested ws j sh)
  ∧ (∀ w, nested (w :: ws) j sh = w (nested ws j sh).1 (nested ws j sh).2)
  ∧ (∀ m1 m2 m3 : JobWrapper,
       Then (NewChain [m1; m2; m3]) j sh
       = Some (let '(j3, sh3) := m3 j sh in
               let '(j2, sh2) := m2 j3 sh3 in
               m1 j2 sh2)).
Proof.
  split; [apply Then_nested|]. split.
  - intros w. simpl. by destruct (nested ws j sh).
  - intros m1 m2 m3. rewrite Then_nested. simpl.
    destruct (m3 j sh) as [j3 sh3]. by destruct (m2 j3 sh3).
Qed.

(** C3, as amended.  An invocation of a job wrapped by [Recover], run
    among any other goroutines: if the inner job raises a fault whose
    value [v] is not nil, the wrapper adds exactly one record to the sink
    as it then is, at error level, holding [v] and the trace of the place
    of the fault, and returns normally; if the inner job returns normally,
    the wrapper adds no record and returns normally. *)
Theorem Recover_logs_fault env n t lg j sh base sh' c' :
  run (λ k, env (S k)) n t (env (S n) sh) (Thread (Call j) (FRecover lg :: base))
    = Some (sh', Thread c' (FRecover lg :: base)) →
  (∀ v site, c' = Panicking (Some v) site →
     ∃ rec, run env (S (S n)) t sh (Thread (Call (RecoverJob lg j)) base)
              = Some (log lg rec (env O sh'), Thread Returning base)
            ∧ lvl rec = LError
            ∧ rec = Errorf recover_format [AAny (Some v); AStack site]
            ∧ logs (log lg rec (env O sh')) = logs (env O sh') ++ [(lg, rec)])
  ∧ (c' = Returning →
     run env (S (S n)) t sh (Thread (Call (RecoverJob lg j)) base)
       = Some (env O sh', Thread Returning base)).
Proof.
  intros Hin. split.
  - intros v site ->. exists (Errorf recover_format [AAny (Some v); AStack site]).
    split; [|done]. by rewrite (Recover_run _ _ _ _ _ _ _ _ _ Hin).
  - intros ->. by rewrite (Recover_run _ _ _ _ _ _ _ _ _ Hin).
Qed.

Lemma Recover_logs_fault_witness :
  run (λ k, alone (S k)) 2 O (alone 3%nat store0)
      (Thread (Call (Base [5%nat] (Panic (Some (VStr "boom"))))) [FRecover 1%nat])
    = Some (emit (EvAct O 5%nat) store0,
            Thread (Panicking (Some (VStr "boom")) [FRecover 1%nat]) [FRecover 1%nat])
  ∧ ∃ rec, run alone 4 O store0
             (Thread (Call (RecoverJob 1%nat (Base [5%nat] (Panic (Some (VStr "boom")))))) [])
             = Some (log 1%nat rec (emit (EvAct O 5%nat) store0), Thread Returning [])
           ∧ lvl rec = LError.
Proof.
  assert (H : run (λ k, alone (S k)) 2 O (alone 3%nat store0)
      (Thread (Call (Base [5%nat] (Panic (Some (VStr "boom"))))) [FRecover 1%nat])
    = Some (emit (EvAct O 5%nat) store0,
            Thread (Panicking (Some (VStr "boom")) [FRecover 1%nat]) [FRecover 1%nat])).
  { reflexivity. }
  split; [exact H|].
  destruct (proj1 (Recover_logs_fault alone 2 O 1%nat _ store0 [] _ _ H) _ _ eq_refl)
    as (rec & Hr & Hl & _).
  exists rec. split; [exact Hr | exact Hl].
Defined.

(** C3 as it is written fails on [panic(nil)], where [recover()] gives
    nil back: the inner job raises a fault, the wrapper returns normally,
    and the sink, empty before, is empty after. *)
Lemma Recover_nil_fault_unlogged :
  run (λ k, alone (S k)) 1 O (alone 2%nat store0)
      (Thread (Call (Base [] (Panic None))) [FRecover 1%nat])
    = Some (store0, Thread (Panicking None [FRecover 1%nat]) [FRecover 1%nat])
  ∧ run alone 3 O store0 (Thread (Call (RecoverJob 1%nat (Base [] (Panic None)))) [])
    = Some (store0, Thread Returning [])
  ∧ logs store0 = [].
Proof. split; [reflexivity|]. split; reflexivity. Qed.

(** C4. In every execution, an invocation of a job wrapped by
    [SkipIfStillRunning] that arrives while another goroutine is inside
    the wrapped job: its [select] takes the [default] case at once and
    leaves the store as it is, the next step adds one informational
    record [skip] and returns, so [j] is never called and nothing blocks;
    the goroutine that is running is left as it was and no two goroutines
    are inside the wrapped job.  When the runner is in the body of a job
    of the caller, it goes on to the end of that body and gives the token
    back. *)
Theorem Skip_while_running c t1 th1 t2 lg ch j s :
  reachable c →
  pool c !! t1 = Some th1 → inside (FSkip ch tt) th1 →
  pool c !! t2 = Some (Thread (Call (SkipJob lg ch j)) s) →
  tstep t2 (store c) (Thread (Call (SkipJob lg ch j)) s)
    = Next (store c) (Thread (SkipDefault lg) s)
  ∧ (∀ sh, tstep t2 sh (Thread (SkipDefault lg) s)
           = Next (log lg (Infof skip_format []) sh) (Thread Returning s))
  ∧ sched [Go t2; Go t2] c
    = Some (Config (log lg (Infof skip_format []) (store c))
                   (<[t2 := Thread Returning s]> (pool c)))
  ∧ (t1 ≠ t2 → <[t2 := Thread Returning s]> (pool c) !! t1 = Some th1)
  ∧ (∀ ta tb tha thb,
       pool c !! ta = Some tha → pool c !! tb = Some thb →
       inside (FSkip ch tt) tha → inside (FSkip ch tt) thb → ta = tb)
  ∧ (∀ b f s1, th1 = Thread (Call (Base b f)) (FSkip ch tt :: s1) →
       ∃ c3, sched ([Go t2; Go t2] ++ replicate (length b) (Go t1) ++ [Go t1; Go t1]) c = Some c3
             ∧ pool c3 !! t1 = Some (Thread (leave f (FSkip ch tt :: s1)) s1)
             ∧ pool c3 !! t2 = Some (Thread Returning s)
             ∧ hist (store c3) = hist (store c) ++ map (EvAct t1) b
             ∧ logs (store c3) = logs (store c) ++ [(lg, Infof skip_format [])]
             ∧ chans (store c3) !! ch = Some (Chan 1 [tt])).
Proof.
  intros Hr H1 Hin H2. pose proof (reachable_token_inv _ Hr) as I.
  destruct (token_held c ch t1 th1 I H1 Hin) as [Hch Hone].
  destruct c as [sh p]; cbn [store pool] in *.
  assert (Hfirst : tstep t2 sh (Thread (Call (SkipJob lg ch j)) s)
                   = Next sh (Thread (SkipDefault lg) s)) by by apply select_default.
  assert (Hskip : sched [Go t2; Go t2] (Config sh p)
                  = Some (Config (log lg (Infof skip_format []) sh)
                                 (<[t2 := Thread Returning s]> p))).
  { erewrite sched_Go; [|done|done].
    erewrite sched_Go; [|by eapply lookup_insert_same|reflexivity].
    by rewrite list_insert_insert_eq. }
  split; [done|]. split; [done|]. split; [done|]. split; [|split].
  - intros Hne. by rewrite list_lookup_insert_ne.
  - intros ta tb tha thb Ha Hb Ia Ib.
    eapply (holders_unique (FSkip ch tt) p); [lia|done..].
  - intros b f s1 ->.
    assert (Hne : t1 ≠ t2) by (intros ->; congruence).
    rewrite (sched_app_Some _ _ _ _ Hskip).
    erewrite sched_app_Some;
      [|by apply (sched_Base t1 b f (FSkip ch tt :: s1)); rewrite list_lookup_insert_ne].
    assert (Hl1 : <[t2 := Thread Returning s]> p !! t1
                  = Some (Thread (Call (Base b f)) (FSkip ch tt :: s1)))
      by by rewrite list_lookup_insert_ne.
    erewrite sched_Go; [|by eapply lookup_insert_same|apply tstep_Base_nil].
    rewrite list_insert_insert_eq.
    erewrite sched_Go; [|by eapply lookup_insert_same|].
    2:{ rewrite tstep_leave_FSkip. unfold send; simpl. by rewrite Hch. }
    rewrite list_insert_insert_eq. simpl. eexists. split; [reflexivity|]. simpl.
    split; [by eapply lookup_insert_same|].
    split; [rewrite list_lookup_insert_ne by done; by eapply lookup_insert_same|].
    split; [done|]. split; [done|]. by rewrite lookup_insert_eq.
Qed.

Lemma Skip_while_running_witness :
  reachable (after [Go O] skip_pool)
  ∧ pool (after [Go O] skip_pool) !! O
    = Some (Thread (Call (Base [5%nat; 6%nat] (Panic boom))) [FSkip O tt])
  ∧ inside (FSkip O tt) (Thread (Call (Base [5%nat; 6%nat] (Panic boom))) [FSkip O tt])
  ∧ pool (after [Go O] skip_pool) !! 1%nat
    = Some (Thread (Call (SkipJob 1%nat O (Base [5%nat; 6%nat] (Panic boom)))) [])
  ∧ sched [Go 1%nat; Go 1%nat] (after [Go O] skip_pool)
    = Some (Config (log 1%nat (Infof skip_format []) (store (after [Go O] skip_pool)))
                   (<[1%nat := Thread Returning []]> (pool (after [Go O] skip_pool)))).
Proof.
  assert (Hr : reachable (after [Go O] skip_pool)).
  { eauto with chain. }
  assert (H1 : pool (after [Go O] skip_pool) !! O
    = Some (Thread (Call (Base [5%nat; 6%nat] (Panic boom))) [FSkip O tt])) by reflexivity.
  assert (Hin : inside (FSkip O tt)
                  (Thread (Call (Base [5%nat; 6%nat] (Panic boom))) [FSkip O tt])).
  { auto with chain. }
  assert (H2 : pool (after [Go O] skip_pool) !! 1%nat
    = Some (Thread (Call (SkipJob 1%nat O (Base [5%nat; 6%nat] (Panic boom)))) []))
    by reflexivity.
  split; [exact Hr|]. split; [exact H1|]. split; [exact Hin|]. split; [exact H2|].
  exact (proj1 (proj2 (proj2 (Skip_while_running _ _ _ _ _ _ _ _ Hr H1 Hin H2)))).
Defined.

(** C5. An invocation of a job wrapped by [DelayIfStillRunning], run among
    any other goroutines, once the lock is free for it: the wait is
    [time.Since] of the reading taken when the call started, evaluated
    with the lock just acquired and before the inner job has taken a step
    (so it is the time from the start of the call to the acquisition when
    the clock has not moved since the lock was taken); one informational
    record holding that duration is added exactly when the wait is more
    than a minute, none when it is a minute or less, and in both cases the
    inner job is what runs next, under the pending unlock. *)
Theorem Delay_wait_record env t lg mu j s sh :
  let arrived := env 2%nat sh in
  let free := env 1%nat arrived in
  let held := emit (EvLock t mu) (set_locked ({[mu]} ∪ locked free) free) in
  let seen := env O held in
  let wait := Since (clock seen) (clock arrived) in
  is_locked mu free = false →
  ∃ sh3, run env 3 t sh (Thread (Call (DelayJob lg mu j)) s)
           = Some (sh3, Thread (Call j) (FDelay mu :: s))
         ∧ (wait > Minute → logs sh3 = logs seen ++ [(lg, Infof delay_format [ADuration wait])])
         ∧ (wait ≤ Minute → logs sh3 = logs seen)
         ∧ (logs sh3 ≠ logs seen ↔ wait > Minute)
         ∧ hist sh3 = hist seen
         ∧ (clock seen = clock held → wait = Since (clock free) (clock arrived)).
Proof.
  intros arrived free held seen wait Hfree.
  rewrite Delay_run. cbv zeta. subst wait seen held free arrived.
  rewrite Hfree. eexists. split; [reflexivity|].
  case_decide as Hw; simpl.
  - repeat split; try done; try lia.
    + intros _ E. apply (f_equal length) in E. rewrite length_app in E. simpl in E. lia.
    + intros ->. done.
  - repeat split; try done; try lia.
    intros ->. done.
Qed.

Lemma Delay_wait_record_witness :
  is_locked 0 (eighty_seconds_late 1 (eighty_seconds_late 2 store0)) = false
  ∧ ∃ sh3, run eighty_seconds_late 3 O store0 (Thread (Call (DelayJob 1%nat O (Base [] Return))) [])
             = Some (sh3, Thread (Call (Base [] Return)) [FDelay O])
           ∧ logs sh3 = [(1%nat, Infof delay_format [ADuration (80 * 1000000000)])].
Proof.
  assert (H : is_locked 0 (eighty_seconds_late 1 (eighty_seconds_late 2 store0)) = false).
  { reflexivity. }
  split; [exact H|].
  destruct (Delay_wait_record eighty_seconds_late O 1%nat O (Base [] Return) [] store0 H)
    as (sh3 & Hr & Hlong & _).
  exists sh3. split; [exact Hr|].
  apply Hlong. vm_compute. reflexivity.
Defined.

(** C6. In every execution, a goroutine leaving the job wrapped by
    [SkipIfStillRunning], by a return or by a panic, runs the deferred
    send: the token is back in the buffer and the goroutine goes on
    leaving as it was (a panic is still the same panic).  After that no
    goroutine is inside the wrapped job, and whenever that is so later on,
    an invocation takes the token and calls the inner job: it is not
    skipped. *)
Theorem Skip_token_back c t k ch v s :
  reachable c →
  pool c !! t = Some (Thread k (FSkip ch v :: s)) → leaving k →
  ∃ sh', let c' := Config sh' (<[t := Thread k s]> (pool c)) in
    tstep t (store c) (Thread k (FSkip ch v :: s)) = Next sh' (Thread k s)
    ∧ chans sh' !! ch = Some (Chan 1 [tt])
    ∧ (∀ t' th', pool c' !! t' = Some th' → ¬ inside (FSkip ch tt) th')
    ∧ ∀ c2, rtc step c' c2 →
        (∀ t' th', pool c2 !! t' = Some th' → ¬ inside (FSkip ch tt) th') →
        ∀ t' lg j' s',
          tstep t' (store c2) (Thread (Call (SkipJob lg ch j')) s')
          = Next (set_chans (<[ch := Chan 1 []]> (chans (store c2))) (store c2))
                 (Thread (Call j') (FSkip ch tt :: s')).
Proof.
  intros Hr Ht Hk. pose proof (reachable_token_inv _ Hr) as I.
  eexists. cbv zeta. split; [by apply token_return|].
  assert (Hstep : step c (Config (set_chans (<[ch := Chan 1 [tt]]> (chans (store c))) (store c))
                                 (<[t := Thread k s]> (pool c)))).
  { destruct c as [sh p]. econstructor; [done|]. by apply (token_return (Config sh p)). }
  pose proof (reachable_step _ _ Hr Hstep) as Hr'.
  pose proof (reachable_token_inv _ Hr') as I'.
  assert (Hfull : chans (set_chans (<[ch := Chan 1 [tt]]> (chans (store c))) (store c)) !! ch
                  = Some (Chan 1 [tt])) by (simpl; by rewrite lookup_insert_eq).
  split; [done|]. split.
  - apply holders_none. destruct (I' ch) as [Hsum _].
    unfold tokens, slots in Hsum. cbn [store pool] in Hsum.
    rewrite Hfull in Hsum. simpl in Hsum. cbn [pool]. lia.
  - intros c2 Hsteps Hno t' lg j' s'. apply select_take.
    apply token_free;
      [|rewrite (rtc_slots _ _ ch Hsteps); unfold slots; cbn [store]; by rewrite Hfull|done].
    apply reachable_token_inv. by eapply reachable_rtc.
Qed.

Lemma Skip_token_back_witness :
  reachable (after (replicate 4 (Go O)) skip_pool)
  ∧ pool (after (replicate 4 (Go O)) skip_pool) !! O
    = Some (Thread (Panicking boom [FSkip O tt]) [FSkip O tt])
  ∧ leaving (Panicking boom [FSkip O tt])
  ∧ ∃ sh', tstep O (store (after (replicate 4 (Go O)) skip_pool))
             (Thread (Panicking boom [FSkip O tt]) [FSkip O tt])
           = Next sh' (Thread (Panicking boom [FSkip O tt]) [])
           ∧ chans sh' !! O = Some (Chan 1 [tt]).
Proof.
  assert (Hr : reachable (after (replicate 4 (Go O)) skip_pool)).
  { eauto with chain. }
  assert (H1 : pool (after (replicate 4 (Go O)) skip_pool) !! O
    = Some (Thread (Panicking boom [FSkip O tt]) [FSkip O tt])) by reflexivity.
  split; [exact Hr|]. split; [exact H1|]. split; [exact I|].
  destruct (Skip_token_back _ _ _ _ _ _ Hr H1 I) as (sh' & Hs & Hc & _).
  exists sh'. split; [exact Hs | exact Hc].
Defined.

(** C7. In every execution, a goroutine leaving the job wrapped by
    [DelayIfStillRunning], by a return or by a panic, runs the deferred
    unlock, which finds the mutex locked (it never is the fatal unlock of
    an unlocked mutex): the mutex is free, the goroutine goes on leaving
    as it was, no goroutine is left inside the wrapped job, the mutex
    still agrees with the pending unlocks, and a goroutine waiting at
    [Lock] gets the mutex. *)
Theorem Delay_unlock_always c t k mu s :
  reachable c →
  pool c !! t = Some (Thread k (FDelay mu :: s)) → leaving k →
  let sh' := emit (EvUnlock t mu) (set_locked (locked (store c) ∖ {[mu]}) (store c)) in
  let c' := Config sh' (<[t := Thread k s]> (pool c)) in
  tstep t (store c) (Thread k (FDelay mu :: s)) = Next sh' (Thread k s)
  ∧ is_locked mu sh' = false
  ∧ mutex_inv c'
  ∧ (∀ t' th', pool c' !! t' = Some th' → ¬ inside (FDelay mu) th')
  ∧ ∀ t' lg start j' s',
      tstep t' sh' (Thread (DelayLock lg mu start j') s')
      = Next (emit (EvLock t' mu) (set_locked ({[mu]} ∪ locked sh') sh'))
             (Thread (DelaySince lg mu start j') (FDelay mu :: s')).
Proof.
  intros Hr Ht Hk sh' c'. pose proof (reachable_mutex_inv _ Hr) as I.
  assert (Hs : tstep t (store c) (Thread k (FDelay mu :: s)) = Next sh' (Thread k s))
    by by apply unlock_step.
  assert (Hstep : step c c').
  { destruct c as [sh p]. by econstructor. }
  pose proof (step_mutex_inv _ _ Hstep I) as I'.
  assert (Hfree : is_locked mu sh' = false) by apply is_locked_unlock.
  split; [done|]. split; [done|]. split; [done|]. split.
  - apply holders_none. rewrite (I' mu). cbn [store c']. by rewrite Hfree.
  - intros t' lg start j' s'. cbn [tstep ctl stk]. by rewrite Hfree.
Qed.

Lemma Delay_unlock_always_witness :
  reachable (after (replicate 6 (Go O)) delay_pool)
  ∧ pool (after (replicate 6 (Go O)) delay_pool) !! O
    = Some (Thread (Panicking boom [FDelay O]) [FDelay O])
  ∧ leaving (Panicking boom [FDelay O])
  ∧ tstep O (store (after (replicate 6 (Go O)) delay_pool))
      (Thread (Panicking boom [FDelay O]) [FDelay O])
    = Next (emit (EvUnlock O O)
              (set_locked (locked (store (after (replicate 6 (Go O)) delay_pool)) ∖ {[O]})
                 (store (after (replicate 6 (Go O)) delay_pool))))
        (Thread (Panicking boom [FDelay O]) []).
Proof.
  assert (Hr : reachable (after (replicate 6 (Go O)) delay_pool)).
  { eauto with chain. }
  assert (H1 : pool (after (replicate 6 (Go O)) delay_pool) !! O
    = Some (Thread (Panicking boom [FDelay O]) [FDelay O])) by reflexivity.
  split; [exact Hr|]. split; [exact H1|]. split; [exact I|].
  exact (proj1 (Delay_unlock_always _ _ _ _ _ Hr H1 I)).
Defined.

(** C8. [Then] of the empty chain gives the job back unchanged and leaves
    the store as it is.  For every chain, the job [Then] returns and the
    store it leaves are those of the applications of the wrappers, a
    function of the chain, the job and the store: [Then] reads the
    sequence of wrappers and allocates nothing itself, so that when no
    wrapper of the chain touches the store, neither does [Then]. *)
Theorem Then_identity_pure (j : Job) (sh : shared) :
  Then (NewChain []) j sh = Some (j, sh)
  ∧ (∀ c, Then c j sh = Some (nested (wrappers c) j sh))
  ∧ (∀ c, Forall (λ w : JobWrapper, ∀ j sh, (w j sh).2 = sh) (wrappers c) →
          ∃ j', Then c j sh = Some (j', sh)).
Proof.
  split; [done|]. split.
  - intros [ws]. apply (Then_nested ws).
  - intros [ws] H. simpl in H. rewrite (Then_nested ws).
    pose proof (nested_store ws j sh H) as E.
    destruct (nested ws j sh) as [j' sh']. simpl in E. subst. eauto.
Qed.

Lemma Then_identity_pure_witness :
  Forall (λ w : JobWrapper, ∀ j sh, (w j sh).2 = sh) (wrappers (NewChain [Recover 1%nat; Recover 2%nat]))
  ∧ ∃ j', Then (NewChain [Recover 1%nat; Recover 2%nat]) (Base [7%nat] Return) store0
          = Some (j', store0).
Proof.
  assert (H : Forall (λ w : JobWrapper, ∀ j sh, (w j sh).2 = sh)
                (wrappers (NewChain [Recover 1%nat; Recover 2%nat]))).
  { repeat constructor. }
  split; [exact H|].
  exact (proj2 (proj2 (Then_identity_pure (Base [7%nat] Return) store0)) _ H).
Defined.

(** C9. Along every execution of a pool of invocations, a single-slot
    channel made by [SkipIfStillRunning] has exactly one token: either it
    is in the buffer and no goroutine is inside the wrapped job, or the
    buffer is empty and exactly one goroutine, with exactly one
    activation, is inside it.  Every step keeps it so, and the deferred
    send that gives the token back finds the slot empty: it does not
    block. *)
Theorem token_exactly_one c ch :
  reachable c →
  slots ch (store c) = 1%nat →
  ((chans (store c) !! ch = Some (Chan 1 [tt])
    ∧ ∀ t th, pool c !! t = Some th → ¬ inside (FSkip ch tt) th)
   ∨ (chans (store c) !! ch = Some (Chan 1 [])
      ∧ ∃ t th, pool c !! t = Some th ∧ holds (FSkip ch tt) th = 1%nat
                ∧ ∀ t' th', pool c !! t' = Some th' → t' ≠ t → ¬ inside (FSkip ch tt) th'))
  ∧ (∀ c', step c c' → token_inv c' ∧ slots ch (store c') = 1%nat)
  ∧ (∀ t k v s,
       pool c !! t = Some (Thread k (FSkip ch v :: s)) → leaving k →
       ∃ sh', tstep t (store c) (Thread k (FSkip ch v :: s)) = Next sh' (Thread k s)
              ∧ chans sh' !! ch = Some (Chan 1 [tt])).
Proof.
  intros Hr Hs. pose proof (reachable_token_inv _ Hr) as I. split; [|split].
  - destruct (I ch) as [Hsum Hle].
    destruct (holders (FSkip ch tt) (pool c)) as [|k] eqn:E.
    + left. split.
      * apply tokens_full; [done | lia].
      * by apply holders_none.
    + assert (k = 0%nat) as -> by lia. right. split.
      * apply tokens_slots; [done | lia].
      * by apply holders_one.
  - intros c' Hstep. split; [by eapply step_token_inv|].
    rewrite <- Hs. apply rtc_slots. by apply rtc_once.
  - intros t k [] s Ht Hk.
    destruct (token_held c ch t _ I Ht (inside_top _ _ _)) as [Hch _].
    destruct k; try done; cbn [tstep ctl stk]; unfold send; rewrite Hch; simpl;
      (eexists; split; [reflexivity|]); simpl; by rewrite lookup_insert_eq.
Qed.

Lemma token_exactly_one_witness :
  reachable (after [Go O] skip_pool)
  ∧ slots O (store (after [Go O] skip_pool)) = 1%nat
  ∧ ∃ t th, pool (after [Go O] skip_pool) !! t = Some th
            ∧ holds (FSkip O tt) th = 1%nat.
Proof.
  assert (Hr : reachable (after [Go O] skip_pool)).
  { eauto with chain. }
  assert (Hs : slots O (store (after [Go O] skip_pool)) = 1%nat) by reflexivity.
  split; [exact Hr|]. split; [exact Hs|].
  destruct (proj1 (token_exactly_one _ O Hr Hs)) as [[Hfull _]|[_ (t & th & Ht & Hh & _)]].
  - vm_compute in Hfull. discriminate.
  - exists t, th. split; [exact Ht | exact Hh].
Defined.

(** C10. [Recover] writes its record only for a fault whose value is not
    nil: an invocation whose inner job raises a fault with a nil value
    returns normally and leaves the sink as it is, and whenever the sink
    has changed the inner job has raised a fault with a value. *)
Theorem Recover_nil_silent env n t lg j sh base sh' c' :
  run (λ k, env (S k)) n t (env (S n) sh) (Thread (Call j) (FRecover lg :: base))
    = Some (sh', Thread c' (FRecover lg :: base)) →
  leaving c' →
  ∃ sh'', run env (S (S n)) t sh (Thread (Call (RecoverJob lg j)) base)
            = Some (sh'', Thread Returning base)
          ∧ (∀ site, c' = Panicking None site → sh'' = env O sh')
          ∧ (logs sh'' ≠ logs (env O sh') → ∃ v site, c' = Panicking (Some v) site).
Proof.
  intros Hin Hc. eexists. split; [by apply Recover_run|]. split.
  - by intros site ->.
  - destruct c' as [| | | | |[v|] site]; try done. eauto.
Qed.

Lemma Recover_nil_silent_witness :
  run (λ k, alone (S k)) 1 O (alone 2%nat store0)
      (Thread (Call (Base [] (Panic None))) [FRecover 1%nat])
    = Some (store0, Thread (Panicking None [FRecover 1%nat]) [FRecover 1%nat])
  ∧ leaving (Panicking None [FRecover 1%nat])
  ∧ ∃ sh'', run alone 3 O store0 (Thread (Call (RecoverJob 1%nat (Base [] (Panic None)))) [])
              = Some (sh'', Thread Returning [])
            ∧ sh'' = store0.
Proof.
  assert (H : run (λ k, alone (S k)) 1 O (alone 2%nat store0)
      (Thread (Call (Base [] (Panic None))) [FRecover 1%nat])
    = Some (store0, Thread (Panicking None [FRecover 1%nat]) [FRecover 1%nat])).
  { reflexivity. }
  split; [exact H|]. split; [exact I|].
  destruct (Recover_nil_silent alone 1 O 1%nat _ store0 [] _ _ H I) as (sh'' & Hr & Hn & _).
  exists sh''. split; [exact Hr | exact (Hn _ eq_refl)].
Defined.

(** ** Further properties *)

(** *** Chains compose *)

Lemma nested_app ws1 ws2 j sh :
  nested (ws1 ++ ws2) j sh = nested ws1 (nested ws2 j sh).1 (nested ws2 j sh).2.
Proof.
  induction ws1 as [|w ws1 IH]; simpl.
  - by destruct (nested ws2 j sh).
  - by rewrite IH.
Qed.

(** X1. The chain of [ws1] followed by [ws2] decorates a job as the chain
    [ws1] decorates what the chain [ws2] makes of it, stores included:
    putting a wrapper in front of a chain wraps it around what the chain
    returned. *)
Theorem Then_append ws1 ws2 j sh :
  Then (NewChain (ws1 ++ ws2)) j sh
  = Then (NewChain ws2) j sh ≫= (λ r, Then (NewChain ws1) r.1 r.2)
  ∧ ∀ w, Then (NewChain (w :: ws2)) j sh
         = Then (NewChain ws2) j sh ≫= (λ r, Some (w r.1 r.2)).
Proof.
  split.
  - rewrite !Then_nested. simpl. rewrite Then_nested. by rewrite nested_app.
  - intros w. rewrite !Then_nested. simpl. by destruct (nested ws2 j sh).
Qed.

(** *** What registration allocates *)

Lemma registration_step w j sh :
  chain_wrapper w →
  ∃ k, (k ≤ 1)%nat
       ∧ next (w j sh).2 = (next sh + k)%nat
       ∧ prims (w j sh).1 = reverse (seq (next sh) k) ++ prims j
       ∧ (∀ l, (l < next sh)%nat →
            chans (w j sh).2 !! l = chans sh !! l
            ∧ (l ∈ locked (w j sh).2 ↔ l ∈ locked sh))
       ∧ clock (w j sh).2 = clock sh ∧ logs (w j sh).2 = logs sh
       ∧ hist (w j sh).2 = hist sh.
Proof.
  intros [lg|lg|lg].
  - exists O. simpl. rewrite Nat.add_0_r. split_and!; try done; lia.
  - exists 1%nat. simpl. split_and!; try done; try lia.
    intros l Hl. split; [done|]. set_solver by lia.
  - exists 1%nat. unfold SkipIfStillRunning, send; simpl.
    rewrite lookup_insert_eq. simpl. split_and!; try done; try lia.
    intros l Hl. split; [|done].
    rewrite insert_insert_eq. apply lookup_insert_ne. lia.
Qed.

Lemma registration_nested ws j sh :
  Forall chain_wrapper ws →
  ∃ k, (k ≤ length ws)%nat
       ∧ next (nested ws j sh).2 = (next sh + k)%nat
       ∧ prims (nested ws j sh).1 = reverse (seq (next sh) k) ++ prims j
       ∧ (∀ l, (l < next sh)%nat →
            chans (nested ws j sh).2 !! l = chans sh !! l
            ∧ (l ∈ locked (nested ws j sh).2 ↔ l ∈ locked sh))
       ∧ clock (nested ws j sh).2 = clock sh ∧ logs (nested ws j sh).2 = logs sh
       ∧ hist (nested ws j sh).2 = hist sh.
Proof.
  induction 1 as [|w ws Hw _ IH]; simpl.
  - exists O. rewrite Nat.add_0_r. split_and!; try done; lia.
  - destruct IH as (k & Hk & Hn & Hp & Hold & Hc & Hl & Hh).
    destruct (nested ws j sh) as [j1 sh1]; simpl in *.
    destruct (registration_step w j1 sh1 Hw) as (k1 & Hk1 & Hn1 & Hp1 & Hold1 & Hc1 & Hl1 & Hh1).
    exists (k + k1)%nat. split_and!; try congruence; try lia.
    + rewrite Hp1, Hp, Hn, seq_app, reverse_app. by rewrite <- app_assoc.
    + intros l Hl'. destruct (Hold l Hl') as [E1 E2].
      destruct (Hold1 l) as [E3 E4]; [lia|]. split; [congruence | tauto].
Qed.



Lemma fresh_range n k l : l ∈ reverse (seq n k) ↔ (n ≤ l < n + k)%nat.
Proof. by rewrite elem_of_reverse, elem_of_seq. Qed.

Lemma fresh_NoDup n k : NoDup (reverse (seq n k)).
Proof. rewrite reverse_Permutation. apply NoDup_seq. Qed.

(** X3. Two registrations, one after the other, of jobs of the caller
    through chains of the three wrappers: every closure of a registered
    job has a location of its own, and no location of the first job is a
    location of the second.  A mutex or a channel belongs to one
    application of a wrapper to one job. *)
Theorem registrations_apart ws1 ws2 a b sh ja sha jb shb :
  Forall chain_wrapper ws1 → Forall chain_wrapper ws2 →
  prims a = [] → prims b = [] →
  Then (NewChain ws1) a sh = Some (ja, sha) →
  Then (NewChain ws2) b sha = Some (jb, shb) →
  NoDup (prims ja) ∧ NoDup (prims jb) ∧ ∀ l, l ∈ prims ja → l ∉ prims jb.
Proof.
  intros H1 H2 Ha Hb Ta Tb.
  rewrite Then_nested in Ta, Tb. injection Ta as Ea. injection Tb as Eb.
  pose proof (registration_nested ws1 a sh H1) as P1. rewrite Ea in P1.
  pose proof (registration_nested ws2 b sha H2) as P2. rewrite Eb in P2.
  destruct P1 as (k1 & _ & Hn1 & Hp1 & _). destruct P2 as (k2 & _ & Hn2 & Hp2 & _).
  simpl in Hn1, Hp1, Hn2, Hp2.
  rewrite Ha, app_nil_r in Hp1. rewrite Hb, app_nil_r in Hp2.
  rewrite Hp1, Hp2. split_and!; try apply fresh_NoDup.
  intros l. rewrite !fresh_range. lia.
Qed.

Lemma registrations_apart_witness :
  Forall chain_wrapper [DelayIfStillRunning 1%nat; SkipIfStillRunning 1%nat]
  ∧ prims (Base [5%nat] Return) = []
  ∧ NoDup (prims (nested [DelayIfStillRunning 1%nat; SkipIfStillRunning 1%nat]
                         (Base [5%nat] Return) store0).1)
  ∧ ∀ l, l ∈ prims (nested [DelayIfStillRunning 1%nat; SkipIfStillRunning 1%nat]
                           (Base [5%nat] Return) store0).1 →
         l ∉ prims (nested [DelayIfStillRunning 1%nat; SkipIfStillRunning 1%nat]
                      (Base [5%nat] Return)
                      (nested [DelayIfStillRunning 1%nat; SkipIfStillRunning 1%nat]
                         (Base [5%nat] Return) store0).2).1.
Proof.
  assert (Hws : Forall chain_wrapper [DelayIfStillRunning 1%nat; SkipIfStillRunning 1%nat]).
  { repeat constructor. }
  split; [exact Hws|]. split; [reflexivity|].
  destruct (registrations_apart
              [DelayIfStillRunning 1%nat; SkipIfStillRunning 1%nat]
              [DelayIfStillRunning 1%nat; SkipIfStillRunning 1%nat]
              (Base [5%nat] Return) (Base [5%nat] Return) store0 _ _ _ _
              Hws Hws eq_refl eq_refl eq_refl eq_refl) as (Ha & _ & Hd).
  split; [exact Ha | exact Hd].
Defined.

(** *** What registration leaves in the store *)

Lemma chain_wrapper_ready w j sh :
  chain_wrapper w → idle sh →
  (∀ ch, ch ∈ chans_of j → is_Some (chans sh !! ch)) →
  idle (w j sh).2 ∧ ∀ ch, ch ∈ chans_of (w j sh).1 → is_Some (chans (w j sh).2 !! ch).
Proof.
  intros [lg|lg|lg] Hi Hc.
  - done.
  - split; [by apply DelayIfStillRunning_idle | done].
  - destruct (SkipIfStillRunning_idle lg j sh Hi) as [Hi' Hnew]. split; [done|].
    intros ch [->|Hin]%elem_of_cons; [by rewrite Hnew|].
    destruct (Hc ch Hin) as [c Hch]. revert Hnew.
    unfold SkipIfStillRunning, send; simpl. rewrite lookup_insert_eq; simpl.
    intros _. rewrite insert_insert_eq, lookup_insert. case_decide; eauto.
Qed.

Lemma nested_ready ws j sh :
  Forall chain_wrapper ws → idle sh →
  (∀ ch, ch ∈ chans_of j → is_Some (chans sh !! ch)) →
  idle (nested ws j sh).2
  ∧ ∀ ch, ch ∈ chans_of (nested ws j sh).1 → is_Some (chans (nested ws j sh).2 !! ch).
Proof.
  intros Hws Hi Hc. induction Hws as [|w ws Hw _ IH]; simpl; [done|].
  destruct IH as [Hi1 Hc1]. destruct (nested ws j sh) as [j1 sh1]; simpl in *.
  by apply chain_wrapper_ready.
Qed.

(** X4. Registering a job of the caller through a chain of the three
    wrappers, in a store between invocations, leaves a store between
    invocations: no mutex is held, and every channel the closures have
    captured is there with its one slot and its token in it (the send at
    registration did not block).  Any number of invocations of the
    registered job, none started, is a pool to start from. *)
Theorem registration_ready ws j sh j' sh' n :
  Forall chain_wrapper ws → idle sh → chans_of j = [] →
  Then (NewChain ws) j sh = Some (j', sh') →
  initial (Config sh' (replicate n (invoke j')))
  ∧ (∀ mu, is_locked mu sh' = false)
  ∧ (∀ ch, ch ∈ chans_of j' → chans sh' !! ch = Some (Chan 1 [tt]) ∧ slots ch sh' = 1%nat).
Proof.
  intros Hws Hi Hj. rewrite Then_nested. intros [= E].
  destruct (nested_ready ws j sh Hws Hi) as [Hi' Hc'].
  { rewrite Hj. by intros ch ?%elem_of_nil. }
  rewrite E in Hi', Hc'. simpl in *. split_and!.
  - split; [done|]. simpl. apply Forall_replicate. by eexists.
  - intros mu. unfold is_locked. destruct Hi' as [-> _].
    apply bool_decide_eq_false_2. set_solver.
  - intros ch Hin. destruct (Hc' ch Hin) as [c Hch].
    destruct Hi' as [_ Hfull]. rewrite (Hfull ch c Hch) in Hch.
    split; [done|]. unfold slots. by rewrite Hch.
Qed.

Lemma registration_ready_witness :
  Forall chain_wrapper [Recover 1%nat; SkipIfStillRunning 2%nat]
  ∧ idle store0 ∧ chans_of (Base [5%nat] Return) = []
  ∧ initial (Config (nested [Recover 1%nat; SkipIfStillRunning 2%nat] (Base [5%nat] Return) store0).2
               (replicate 3 (invoke (nested [Recover 1%nat; SkipIfStillRunning 2%nat]
                                       (Base [5%nat] Return) store0).1))).
Proof.
  assert (Hws : Forall chain_wrapper [Recover 1%nat; SkipIfStillRunning 2%nat]).
  { repeat constructor. }
  split; [exact Hws|]. split; [exact idle_store0|]. split; [reflexivity|].
  exact (proj1 (registration_ready [Recover 1%nat; SkipIfStillRunning 2%nat]
                  (Base [5%nat] Return) store0 _ _ 3 Hws idle_store0 eq_refl eq_refl)).
Defined.

(** *** The one place where a goroutine waits *)




(** *** Skipped exactly when the job is running *)

(** X6. In every execution, for a channel of [SkipIfStillRunning] with
    its one slot: an invocation takes the [default] case exactly when some
    goroutine is inside the wrapped job, and takes the token and calls the
    inner job exactly when none is.  There is no skip without a run in
    progress, and a run in progress under another channel skips
    nothing. *)
Theorem skipped_iff_running c t lg ch j s :
  reachable c → slots ch (store c) = 1%nat →
  (tstep t (store c) (Thread (Call (SkipJob lg ch j)) s)
     = Next (store c) (Thread (SkipDefault lg) s)
   ↔ ∃ t' th', pool c !! t' = Some th' ∧ inside (FSkip ch tt) th')
  ∧ (tstep t (store c) (Thread (Call (SkipJob lg ch j)) s)
       = Next (set_chans (<[ch := Chan 1 []]> (chans (store c))) (store c))
              (Thread (Call j) (FSkip ch tt :: s))
     ↔ ∀ t' th', pool c !! t' = Some th' → ¬ inside (FSkip ch tt) th').
Proof.
  intros Hr Hs. pose proof (reachable_token_inv _ Hr) as I.
  destruct (I ch) as [Hsum _].
  destruct (holders (FSkip ch tt) (pool c)) as [|k] eqn:E.
  - assert (Hno : ∀ t' th', pool c !! t' = Some th' → ¬ inside (FSkip ch tt) th')
      by by apply holders_none.
    pose proof (token_free c ch I Hs Hno) as Hfull.
    rewrite (select_take t _ lg ch j s Hfull). split.
    + split; [done|]. intros (t' & th' & Ht' & Hin). by destruct (Hno t' th').
    + done.
  - assert (k = 0%nat) as -> by lia.
    destruct (holders_one _ _ E) as (t' & th' & Ht' & Hh & _).
    assert (Hin : inside (FSkip ch tt) th') by (apply inside_holds; lia).
    destruct (token_held c ch t' th' I Ht' Hin) as [Hempty _].
    rewrite (select_default t _ lg ch j s Hempty). split.
    + split; [eauto | done].
    + split; [done|]. intros Hno. by destruct (Hno t' th').
Qed.

Lemma skipped_iff_running_witness :
  reachable (after [Go O] skip_pool)
  ∧ slots O (store (after [Go O] skip_pool)) = 1%nat
  ∧ (∃ t' th', pool (after [Go O] skip_pool) !! t' = Some th' ∧ inside (FSkip O tt) th')
  ∧ tstep 1%nat (store (after [Go O] skip_pool))
      (Thread (Call (SkipJob 1%nat O (Base [5%nat; 6%nat] (Panic boom)))) [])
    = Next (store (after [Go O] skip_pool)) (Thread (SkipDefault 1%nat) []).
Proof.
  assert (Hr : reachable (after [Go O] skip_pool)) by eauto with chain.
  assert (Hs : slots O (store (after [Go O] skip_pool)) = 1%nat) by reflexivity.
  assert (Hin : ∃ t' th', pool (after [Go O] skip_pool) !! t' = Some th'
                          ∧ inside (FSkip O tt) th').
  { exists O, (Thread (Call (Base [5%nat; 6%nat] (Panic boom))) [FSkip O tt]).
    split; [reflexivity | auto with chain]. }
  split; [exact Hr|]. split; [exact Hs|]. split; [exact Hin|].
  exact (proj2 (proj1 (skipped_iff_running _ 1%nat 1%nat O
                         (Base [5%nat; 6%nat] (Panic boom)) [] Hr Hs)) Hin).
Defined.

(** *** Leaving through any number of layers *)

Lemma unwind_step c t k f s :
  reachable c → pool c !! t = Some (Thread k (f :: s)) → leaving k →
  ∃ sh' k', tstep t (store c) (Thread k (f :: s)) = Next sh' (Thread k' s)
    ∧ leaving k'
    ∧ settle k (f :: s) = settle k' s
    ∧ logs (store c) ++ settle_logs k (f :: s) = logs sh' ++ settle_logs k' s.
Proof.
  intros Hr Ht Hk.
  assert (Hret : ∀ s', settle_logs Returning s' = []).
  { induction s' as [|[] s' IH]; simpl; auto. }
  destruct f as [lg|mu|ch v].
  - destruct k as [| | | | |[v|] site]; try done; cbn [tstep ctl stk];
      eexists _, Returning; (split; [reflexivity|]); simpl;
      rewrite ?Hret, ?app_nil_r; done.
  - rewrite (unlock_step c mu t k s (reachable_mutex_inv _ Hr) Ht Hk).
    eexists _, k. split; [reflexivity|]. done.
  - rewrite (token_return c ch t k v s (reachable_token_inv _ Hr) Ht Hk).
    eexists _, k. split; [reflexivity|]. done.
Qed.

Lemma unwind_run s : ∀ c t k,
  reachable c → pool c !! t = Some (Thread k s) → leaving k →
  ∃ c', sched (replicate (length s) (Go t)) c = Some c'
    ∧ pool c' = <[t := Thread (settle k s) []]> (pool c)
    ∧ logs (store c') = logs (store c) ++ settle_logs k s.
Proof.
  induction s as [|f s IH]; intros c t k Hr Ht Hk.
  - exists c. simpl. split; [done|]. split; [|by rewrite app_nil_r].
    by rewrite list_insert_id.
  - destruct (unwind_step c t k f s Hr Ht Hk) as (sh' & k' & Hstep & Hk' & Hset & Hlog).
    destruct c as [sh p]; cbn [store pool] in *.
    assert (Hr' : reachable (Config sh' (<[t := Thread k' s]> p))).
    { eapply reachable_step; [done|]. by econstructor. }
    destruct (IH _ t k' Hr' (lookup_insert_same _ _ _ _ Ht) Hk') as (c' & Hs & Hp & Hl).
    exists c'. cbn [length replicate]. rewrite (sched_Go _ _ _ _ _ _ _ Ht Hstep).
    split; [done|]. cbn [store pool] in *. split.
    + by rewrite Hp, list_insert_insert_eq, Hset.
    + by rewrite Hl, Hlog.
Qed.

(** X7. In every execution, a goroutine that is leaving, by a return or
    by a panic, under any stack of activations of the three wrappers goes
    all the way out without waiting: every mutex it had locked is free
    and every token it had taken is back; a panic goes on through the
    layers of [DelayIfStillRunning] and [SkipIfStillRunning] and stops at
    the first [Recover], which writes the one record when the value is not
    nil, after which the goroutine returns normally; with no [Recover] on
    the way the panic reaches the caller of the invocation. *)
Theorem unwinding c t k s :
  reachable c → pool c !! t = Some (Thread k s) → leaving k →
  ∃ c', sched (replicate (length s) (Go t)) c = Some c'
    ∧ pool c' = <[t := Thread (settle k s) []]> (pool c)
    ∧ logs (store c') = logs (store c) ++ settle_logs k s
    ∧ (∀ mu, FDelay mu ∈ s → is_locked mu (store c') = false)
    ∧ (∀ ch, FSkip ch tt ∈ s → chans (store c') !! ch = Some (Chan 1 [tt])).
Proof.
  intros Hr Ht Hk.
  destruct (unwind_run s c t k Hr Ht Hk) as (c' & Hs & Hp & Hl).
  exists c'. split; [done|]. split; [done|]. split; [done|].
  assert (Hr' : reachable c') by (eapply reachable_rtc; [done | by apply (sched_rtc _ _ _ Hs)]).
  assert (Hgone : ∀ f, (1 ≤ holds f (Thread k s))%nat → (holders f (pool c) ≤ 1)%nat →
                       holders f (pool c') = 0%nat).
  { intros f Hin Hle. pose proof (holders_insert f _ t _ (Thread (settle k s) []) Ht) as Hins.
    rewrite <- Hp in Hins.
    change (holds f (Thread (settle k s) [])) with 0%nat in Hins. lia. }
  split.
  - intros mu Hin.
    pose proof (reachable_mutex_inv _ Hr mu) as Im.
    pose proof (reachable_mutex_inv _ Hr' mu) as Im'.
    rewrite Hgone in Im'.
    + by destruct (is_locked mu (store c')).
    + by apply inside_holds.
    + rewrite Im. destruct (is_locked mu (store c)); simpl; lia.
  - intros ch Hin.
    pose proof (reachable_token_inv _ Hr) as Ik.
    destruct (token_held c ch t _ Ik Ht Hin) as [Hch Hone].
    destruct (reachable_token_inv _ Hr' ch) as [Hsum _].
    assert (Hsl : slots ch (store c') = 1%nat).
    { rewrite (rtc_slots c c' ch (sched_rtc _ _ _ Hs)). unfold slots. by rewrite Hch. }
    rewrite Hgone in Hsum; [|by apply inside_holds|lia].
    apply tokens_full; [done | lia].
Qed.

Lemma layered_pool_initial : initial layered_pool.
Proof.
  split.
  - apply nested_idle; [|apply idle_store0].
    repeat apply Forall_cons_2; [..|apply Forall_nil_2].
    + apply (wrappers_idle 1).
    + apply (wrappers_idle 2).
    + apply (wrappers_idle 3).
  - repeat constructor; by eexists.
Qed.

Lemma unwinding_witness :
  reachable (after (replicate 7 (Go O)) layered_pool)
  ∧ pool (after (replicate 7 (Go O)) layered_pool) !! O
    = Some (Thread (Panicking boom [FSkip O tt; FDelay 1%nat; FRecover 1%nat])
                   [FSkip O tt; FDelay 1%nat; FRecover 1%nat])
  ∧ leaving (Panicking boom [FSkip O tt; FDelay 1%nat; FRecover 1%nat])
  ∧ ∃ c', sched (replicate 3 (Go O)) (after (replicate 7 (Go O)) layered_pool) = Some c'
          ∧ pool c' = <[O := Thread Returning []]> (pool (after (replicate 7 (Go O)) layered_pool))
          ∧ logs (store c')
            = [(1%nat, Errorf recover_format
                         [AAny boom; AStack [FSkip O tt; FDelay 1%nat; FRecover 1%nat]])].
Proof.
  assert (Hr : reachable (after (replicate 7 (Go O)) layered_pool)).
  { apply reachable_after, initial_reachable, layered_pool_initial. }
  assert (H1 : pool (after (replicate 7 (Go O)) layered_pool) !! O
    = Some (Thread (Panicking boom [FSkip O tt; FDelay 1%nat; FRecover 1%nat])
                   [FSkip O tt; FDelay 1%nat; FRecover 1%nat])) by reflexivity.
  split; [exact Hr|]. split; [exact H1|]. split; [exact I|].
  destruct (unwinding _ _ _ _ Hr H1 I) as (c' & Hs & Hp & Hl & _).
  exists c'. split; [exact Hs|]. split; [exact Hp | exact Hl].
Defined.

(** *** What is written to the sink *)

Lemma Since_max now start : Since now start ≤ maxDuration.
Proof. unfold Since, maxDuration, minDuration. lia. Qed.

Lemma tstep_logs t sh th sh' th' :
  tstep t sh th = Next sh' th' →
  ∃ new, logs sh' = logs sh ++ new ∧ Forall genuine new.
Proof.
  intros H. destruct th as [k s].
  tstep_inv H; simpl;
    first [ by (exists []; split; [by rewrite app_nil_r | by constructor])
          | eexists [_]; split; [reflexivity|]; apply Forall_singleton; unfold genuine; simpl ].
  - right. left. eexists. split; [done|]. split; [lia | apply Since_max].
  - by left.
  - right. right. eauto.
Qed.

(** X8. Along every execution the sink only grows, and what is added is
    one of three records: the informational [skip]; the informational
    delay, with a duration of more than a minute (never a minute or
    less); the error record of a panic, with a value that is not nil
    (never for a nil value, never for a normal return). *)
Theorem only_genuine_records c c' :
  rtc step c c' →
  ∃ new, logs (store c') = logs (store c) ++ new ∧ Forall genuine new.
Proof.
  induction 1 as [c|c1 c2 c3 Hstep _ (new & Hl & Hg)].
  - exists []. split; [by rewrite app_nil_r | by constructor].
  - destruct Hstep as [sh p d Hd | sh p t th sh' th' Hp Ht]; cbn [store] in *.
    + by exists new.
    + destruct (tstep_logs _ _ _ _ _ Ht) as (new1 & Hl1 & Hg1).
      exists (new1 ++ new). split.
      * by rewrite Hl, Hl1, app_assoc.
      * by apply Forall_app.
Qed.

Lemma only_genuine_records_witness :
  rtc step delay_pool
    (after ([Go O; Go O; Go O; Go 1%nat; Tick (61 * 1000000000)]
            ++ replicate 4 (Go O) ++ replicate 6 (Go 1%nat)) delay_pool)
  ∧ ∃ new, logs (store (after ([Go O; Go O; Go O; Go 1%nat; Tick (61 * 1000000000)]
                               ++ replicate 4 (Go O) ++ replicate 6 (Go 1%nat)) delay_pool))
           = logs (store delay_pool) ++ new
           ∧ Forall genuine new.
Proof.
  assert (Hs : rtc step delay_pool
    (after ([Go O; Go O; Go O; Go 1%nat; Tick (61 * 1000000000)]
            ++ replicate 4 (Go O) ++ replicate 6 (Go 1%nat)) delay_pool)).
  { auto with chain. }
  split; [exact Hs|]. exact (only_genuine_records _ _ Hs).
Defined.

(** *** An invocation that meets no other *)

(** X9. In every execution, an invocation of a job of the caller wrapped
    by [SkipIfStillRunning] that starts while no goroutine is inside the
    wrapped job and is not interrupted: it takes the token, runs the whole
    body, gives the token back and leaves as the body left; nothing is
    logged, and again no goroutine is inside, so that invocations made one
    after the other all run and none is skipped. *)
Theorem Skip_alone c t lg ch b f s :
  reachable c → slots ch (store c) = 1%nat →
  (∀ t' th', pool c !! t' = Some th' → ¬ inside (FSkip ch tt) th') →
  pool c !! t = Some (Thread (Call (SkipJob lg ch (Base b f))) s) →
  ∃ c', sched (Go t :: replicate (length b) (Go t) ++ [Go t; Go t]) c = Some c'
    ∧ pool c' = <[t := Thread (leave f (FSkip ch tt :: s)) s]> (pool c)
    ∧ hist (store c') = hist (store c) ++ map (EvAct t) b
    ∧ logs (store c') = logs (store c)
    ∧ chans (store c') !! ch = Some (Chan 1 [tt])
    ∧ (∀ t' th', pool c' !! t' = Some th' → ¬ inside (FSkip ch tt) th').
Proof.
  intros Hr Hs Hno Ht. pose proof (reachable_token_inv _ Hr) as I.
  pose proof (token_free c ch I Hs Hno) as Hfull.
  destruct c as [sh p]; cbn [store pool] in *.
  rewrite (sched_Go _ _ _ _ _ _ _ Ht (select_take t sh lg ch (Base b f) s Hfull)).
  erewrite sched_app_Some;
    [|by apply (sched_Base t b f (FSkip ch tt :: s)); eapply lookup_insert_same].
  rewrite list_insert_insert_eq.
  erewrite sched_Go; [|by eapply lookup_insert_same|apply tstep_Base_nil].
  rewrite list_insert_insert_eq.
  erewrite sched_Go; [|by eapply lookup_insert_same|].
  2:{ rewrite tstep_leave_FSkip. unfold send; simpl. by rewrite lookup_insert_eq. }
  rewrite list_insert_insert_eq. simpl. eexists. split; [reflexivity|]. simpl.
  split_and!; try done.
  - by rewrite lookup_insert_eq.
  - intros t' th' Ht' Hin. destruct (decide (t' = t)) as [->|Hne].
    + rewrite (lookup_insert_same _ _ _ _ Ht) in Ht'. simplify_eq.
      by apply (Hno t _ Ht).
    + rewrite list_lookup_insert_ne in Ht' by done. by apply (Hno t' th').
Qed.

Lemma Skip_alone_witness :
  reachable skip_pool ∧ slots O (store skip_pool) = 1%nat
  ∧ (∀ t' th', pool skip_pool !! t' = Some th' → ¬ inside (FSkip O tt) th')
  ∧ ∃ c', sched (Go O :: replicate 2 (Go O) ++ [Go O; Go O]) skip_pool = Some c'
          ∧ hist (store c') = hist (store skip_pool) ++ map (EvAct O) [5%nat; 6%nat]
          ∧ logs (store c') = logs (store skip_pool).
Proof.
  assert (Hr : reachable skip_pool) by auto with chain.
  assert (Hs : slots O (store skip_pool) = 1%nat) by reflexivity.
  assert (Hno : ∀ t' th', pool skip_pool !! t' = Some th' → ¬ inside (FSkip O tt) th').
  { apply holders_none. reflexivity. }
  split; [exact Hr|]. split; [exact Hs|]. split; [exact Hno|].
  destruct (Skip_alone skip_pool O 1%nat O [5%nat; 6%nat] (Panic boom) [] Hr Hs Hno eq_refl)
    as (c' & Hc & _ & Hh & Hl & _).
  exists c'. split; [exact Hc|]. split; [exact Hh | exact Hl].
Defined.

Lemma Since_same now :
  minDuration ≤ 0 ≤ maxDuration → Since now now = 0.
Proof. unfold Since. lia. Qed.

(** X10. An invocation of a job of the caller wrapped by
    [DelayIfStillRunning] that finds the mutex free and is not
    interrupted, the clock standing still: it locks, runs the whole body
    and unlocks, on a return and on a panic alike; its turn is added to
    the history, the mutex is free again, and nothing is logged, the wait
    being zero. *)
Theorem Delay_alone sh p t lg mu b f s :
  is_locked mu sh = false →
  p !! t = Some (Thread (Call (DelayJob lg mu (Base b f))) s) →
  ∃ sh', sched (Go t :: Go t :: Go t :: replicate (length b) (Go t) ++ [Go t; Go t])
           (Config sh p)
         = Some (Config sh' (<[t := Thread (leave f (FDelay mu :: s)) s]> p))
    ∧ hist sh' = hist sh ++ EvLock t mu :: map (EvAct t) b ++ [EvUnlock t mu]
    ∧ logs sh' = logs sh
    ∧ clock sh' = clock sh
    ∧ is_locked mu sh' = false.
Proof.
  intros Hfree Ht.
  erewrite sched_Go; [|done|reflexivity].
  erewrite sched_Go; [|by eapply lookup_insert_same|].
  2:{ cbn [tstep ctl stk]. by rewrite Hfree. }
  rewrite list_insert_insert_eq.
  erewrite sched_Go; [|by eapply lookup_insert_same|].
  2:{ cbn [tstep ctl stk]. simpl. rewrite Since_same by done.
      rewrite decide_False by done. reflexivity. }
  rewrite list_insert_insert_eq.
  erewrite sched_app_Some;
    [|by apply (sched_Base t b f (FDelay mu :: s)); eapply lookup_insert_same].
  rewrite list_insert_insert_eq.
  erewrite sched_Go; [|by eapply lookup_insert_same|apply tstep_Base_nil].
  rewrite list_insert_insert_eq.
  erewrite sched_Go; [|by eapply lookup_insert_same|].
  2:{ rewrite tstep_leave_FDelay.
      assert (is_locked mu (emits (map (EvAct t) b)
                (emit (EvLock t mu) (set_locked ({[mu]} ∪ locked sh) sh))) = true) as ->.
      { unfold is_locked; simpl. apply bool_decide_eq_true_2. set_solver. }
      reflexivity. }
  rewrite list_insert_insert_eq. simpl. eexists. split; [reflexivity|]. simpl.
  split_and!; try done.
  - by rewrite <- !app_assoc.
  - unfold is_locked; simpl. apply bool_decide_eq_false_2. set_solver.
Qed.

Lemma Delay_alone_witness :
  is_locked O (store delay_pool) = false
  ∧ pool delay_pool !! O = Some (Thread (Call (DelayJob 1%nat O (Base [5%nat; 6%nat] (Panic boom)))) [])
  ∧ ∃ sh', sched (Go O :: Go O :: Go O :: replicate 2 (Go O) ++ [Go O; Go O]) delay_pool
           = Some (Config sh' (<[O := Thread (Panicking boom [FDelay O]) []]> (pool delay_pool)))
           ∧ hist sh' = [EvLock O O; EvAct O 5%nat; EvAct O 6%nat; EvUnlock O O].
Proof.
  assert (Hf : is_locked O (store delay_pool) = false) by reflexivity.
  assert (H1 : pool delay_pool !! O
    = Some (Thread (Call (DelayJob 1%nat O (Base [5%nat; 6%nat] (Panic boom)))) []))
    by reflexivity.
  split; [exact Hf|]. split; [exact H1|].
  destruct (Delay_alone (store delay_pool) (pool delay_pool) O 1%nat O
              [5%nat; 6%nat] (Panic boom) [] Hf H1) as (sh' & Hs & Hh & _).
  exists sh'. split; [exact Hs | exact Hh].
Defined.

(** *** No deadlock *)























(** *** A chain that starts with [Recover] *)

Lemma last_push {A} (x : A) l y : last l = Some y → last (x :: l) = Some y.
Proof. destruct l; [done|]. by intros <-. Qed.

Lemma tstep_guarded lg t sh th sh' th' :
  tstep t sh th = Next sh' th' → guarded lg th → guarded lg th'.
Proof.
  intros H [[j ->] | [Hlast | ->]].
  - cbn [tstep invoke ctl stk] in H. simplify_eq. right. by left.
  - destruct th as [k s]. cbn [stk] in Hlast.
    assert (Hpop : ∀ k' f s', s = f :: s' → th' = Thread k' s' →
                   (f = FRecover lg → k' = Returning) → guarded lg th').
    { intros k' f s' -> -> Hk'. destruct s' as [|g s'].
      - simpl in Hlast. simplify_eq. rewrite Hk' by done. by right; right.
      - right. left. by rewrite <- Hlast. }
    destruct k as [j|lg' mu start j|lg' mu start j|lg'| |r site].
    + destruct j as [[|a b] f|lg' j|lg' mu j|lg' ch j]; cbn [tstep ctl stk] in H.
      * simplify_eq. right. by left.
      * simplify_eq. right. by left.
      * simplify_eq. right. left. by apply last_push.
      * simplify_eq. right. by left.
      * destruct (recv ch sh) as [[v sh1]|]; simplify_eq; right; left; [|done].
        by apply last_push.
    + cbn [tstep ctl stk] in H. destruct (is_locked mu sh); simplify_eq.
      right. left. by apply last_push.
    + cbn [tstep ctl stk] in H. simplify_eq. right. by left.
    + cbn [tstep ctl stk] in H. simplify_eq. right. by left.
    + destruct s as [|f s']; [done|]. destruct f as [lg'|mu|ch v]; cbn [tstep ctl stk] in H.
      * simplify_eq. by eapply Hpop.
      * destruct (is_locked mu sh); simplify_eq. by eapply Hpop.
      * destruct (send ch v sh); simplify_eq. by eapply Hpop.
    + destruct s as [|f s']; [done|]. destruct f as [lg'|mu|ch v]; cbn [tstep ctl stk] in H.
      * destruct r; simplify_eq; by eapply Hpop.
      * destruct (is_locked mu sh); simplify_eq. by eapply Hpop.
      * destruct (send ch v sh); simplify_eq. by eapply Hpop.
  - done.
Qed.

Lemma rtc_guarded lg c c' t :
  rtc step c c' →
  (∃ th, pool c !! t = Some th ∧ guarded lg th) →
  ∃ th, pool c' !! t = Some th ∧ guarded lg th.
Proof.
  induction 1 as [|c1 c2 c3 Hstep _ IH]; [done|]. intros (th & Ht & Hg). apply IH.
  destruct Hstep as [sh p d Hd | sh p t0 th0 sh' th0' Hp Hs]; cbn [pool] in *; [eauto|].
  destruct (decide (t = t0)) as [->|Hne].
  - simplify_eq. exists th0'. split; [by eapply lookup_insert_same|].
    by eapply tstep_guarded.
  - exists th. by rewrite list_lookup_insert_ne.
Qed.

(** X12. A job registered through a chain whose first wrapper is
    [Recover] never lets a fault out: in every execution, whatever the
    other wrappers and the job do, an invocation of it that is over has
    returned normally. *)
Theorem Recover_first_contains ws lg j sh j' sh' c0 c t th :
  Then (NewChain (Recover lg :: ws)) j sh = Some (j', sh') →
  pool c0 !! t = Some (invoke j') →
  rtc step c0 c →
  pool c !! t = Some th → finished th →
  th = Thread Returning [].
Proof.
  intros HT H0 Hs Ht [Hk Hstk].
  rewrite Then_nested in HT. simpl in HT.
  destruct (nested ws j sh) as [j1 sh1]. simpl in HT. injection HT as <- <-.
  destruct (rtc_guarded lg c0 c t Hs) as (th1 & Ht1 & Hg).
  { exists (invoke (RecoverJob lg j1)). split; [done|]. left. by eexists. }
  simplify_eq. destruct Hg as [[j2 ->] | [Hlast | ->]]; [done| |done].
  by rewrite Hstk in Hlast.
Qed.

Lemma Recover_first_contains_witness :
  Then (NewChain [Recover 1%nat; DelayIfStillRunning 2%nat; SkipIfStillRunning 3%nat])
       (Base [5%nat] (Panic boom)) store0 = Some (layered_job.1, layered_job.2)
  ∧ pool layered_pool !! O = Some (invoke layered_job.1)
  ∧ rtc step layered_pool (after (replicate 10 (Go O)) layered_pool)
  ∧ pool (after (replicate 10 (Go O)) layered_pool) !! O = Some (Thread Returning [])
  ∧ finished (Thread Returning []).
Proof.
  assert (HT : Then (NewChain [Recover 1%nat; DelayIfStillRunning 2%nat; SkipIfStillRunning 3%nat])
       (Base [5%nat] (Panic boom)) store0 = Some (layered_job.1, layered_job.2))
    by reflexivity.
  assert (H0 : pool layered_pool !! O = Some (invoke layered_job.1)) by reflexivity.
  assert (Hs : rtc step layered_pool (after (replicate 10 (Go O)) layered_pool)).
  { auto with chain. }
  assert (Hf : finished (Thread Returning [])) by (split; [exact I | reflexivity]).
  assert (Ht : ∃ th, pool (after (replicate 10 (Go O)) layered_pool) !! O = Some th
                     ∧ finished th).
  { exists (Thread Returning []). split; [reflexivity | exact Hf]. }
  destruct Ht as (th & Ht & Hth).
  split; [exact HT|]. split; [exact H0|]. split; [exact Hs|].
  split; [|exact Hf].
  rewrite <- (Recover_first_contains _ _ _ _ _ _ _ _ _ _ HT H0 Hs Ht Hth). exact Ht.
Defined.

(** *** Run or skipped, never both *)

Section Accounted.

Context (lg ch : nat) (specs : list (list act * exit)).

Lemma place_of_ran ran skipped cur t : t ∈ ran → place_of ran skipped cur t = Ran.
Proof. intros H. unfold place_of. by rewrite decide_True. Qed.

Lemma place_of_skipped ran skipped cur t :
  t ∉ ran → t ∈ skipped → place_of ran skipped cur t = Skipped.
Proof. intros H1 H2. unfold place_of. by rewrite decide_False, decide_True. Qed.

Lemma place_of_in ran skipped t did :
  t ∉ ran ++ skipped → place_of ran skipped (Some (t, did)) t = In did.
Proof.
  rewrite elem_of_app. intros H. unfold place_of.
  rewrite !decide_False by tauto. by rewrite decide_True.
Qed.

Lemma place_of_out ran skipped t :
  t ∉ ran ++ skipped → place_of ran skipped None t = Out.
Proof.
  rewrite elem_of_app. intros H. unfold place_of. by rewrite !decide_False by tauto.
Qed.

Lemma place_of_other ran skipped t0 did t :
  t ≠ t0 → place_of ran skipped (Some (t0, did)) t = place_of ran skipped None t.
Proof. intros H. unfold place_of. repeat case_decide; done. Qed.

Lemma place_of_snoc_ran ran skipped cur t0 t :
  t ≠ t0 → place_of (ran ++ [t0]) skipped cur t = place_of ran skipped cur t.
Proof.
  intros H. unfold place_of.
  destruct (decide (t ∈ ran)).
  - rewrite decide_True; [done|]. apply elem_of_app. by left.
  - rewrite (decide_False (P := t ∈ ran ++ [t0])); [done|].
    rewrite elem_of_app, list_elem_of_singleton. tauto.
Qed.

Lemma place_of_snoc_skipped ran skipped cur t0 t :
  t ≠ t0 → place_of ran (skipped ++ [t0]) cur t = place_of ran skipped cur t.
Proof.
  intros H. unfold place_of.
  destruct (decide (t ∈ ran)); [done|].
  destruct (decide (t ∈ skipped)).
  - rewrite decide_True; [done|]. apply elem_of_app. by left.
  - rewrite (decide_False (P := t ∈ skipped ++ [t0])); [done|].
    rewrite elem_of_app, list_elem_of_singleton. tauto.
Qed.

Lemma at_place_update (p : list thread) ran skipped cur ran' skipped' cur' t0 th0 spec0 th0' :
  (∀ t spec th, specs !! t = Some spec → p !! t = Some th →
                at_place lg ch spec (place_of ran skipped cur t) th) →
  p !! t0 = Some th0 → specs !! t0 = Some spec0 →
  at_place lg ch spec0 (place_of ran' skipped' cur' t0) th0' →
  (∀ t, t ≠ t0 → place_of ran' skipped' cur' t = place_of ran skipped cur t) →
  ∀ t spec th, specs !! t = Some spec → <[t0 := th0']> p !! t = Some th →
               at_place lg ch spec (place_of ran' skipped' cur' t) th.
Proof.
  intros Hall Hp Hs Hnew Hsame t spec th Hspec Hl.
  destruct (decide (t = t0)) as [->|Hne].
  - rewrite (lookup_insert_same _ _ _ _ Hp) in Hl. by simplify_eq.
  - rewrite list_lookup_insert_ne in Hl by done. rewrite Hsame by done. eauto.
Qed.

Lemma NoDup_snoc_ran (ran skipped : list tid) t :
  NoDup (ran ++ skipped) → t ∉ ran ++ skipped → NoDup ((ran ++ [t]) ++ skipped).
Proof.
  intros Hnd Hnin. rewrite <- app_assoc. simpl.
  apply NoDup_app in Hnd as (H1 & H2 & H3). rewrite elem_of_app in Hnin.
  apply NoDup_app. split; [done|]. split.
  - intros x Hx [->|Hx']%elem_of_cons; [tauto | by eapply H2].
  - apply NoDup_cons. tauto.
Qed.

Lemma NoDup_snoc_skipped (ran skipped : list tid) t :
  NoDup (ran ++ skipped) → t ∉ ran ++ skipped → NoDup (ran ++ skipped ++ [t]).
Proof.
  intros Hnd Hnin. rewrite app_assoc. apply NoDup_app. split; [done|]. split.
  - by intros x Hx ->%list_elem_of_singleton.
  - apply NoDup_singleton.
Qed.

Ltac accounted_split :=
  unfold accounted; cbn [store pool]; rewrite ?length_insert; split_and!; try done;
  try (intros _; right; by eexists).

Lemma accounted_step h0 l0 c c' ran skipped cur :
  accounted lg ch specs h0 l0 c ran skipped cur → step c c' →
  ∃ ran' skipped' cur', accounted lg ch specs h0 l0 c' ran' skipped' cur'.
Proof.
  intros Hacc Hs.
  destruct Hs as [sh p d Hd | sh p t th sh' th' Hp Ht].
  { by exists ran, skipped, cur. }
  destruct Hacc as (Hnd & Hh & Hlog & Hch & Hlen & Hbound & Hcur & Hth & Hgone).
  cbn [store pool] in *.
  destruct (lookup_lt_is_Some_2 specs t) as [spec Hspec].
  { rewrite <- Hlen. by eapply lookup_lt_Some. }
  assert (Hlt : (t < length specs)%nat) by by eapply lookup_lt_Some.
  pose proof (Hth t spec th Hspec Hp) as Hst.
  pose proof (at_place_update p ran skipped cur) as Hupd.
  destruct (decide (t ∈ ran)) as [Hin|Hnin].
  { rewrite place_of_ran in Hst by done. simpl in Hst. subst th.
    by rewrite tstep_leave_nil in Ht. }
  destruct (decide (t ∈ skipped)) as [Hin|Hnin'].
  { rewrite place_of_skipped in Hst by done. simpl in Hst. by subst th. }
  assert (Hout : t ∉ ran ++ skipped) by (rewrite elem_of_app; tauto).
  assert (Hskip : ∀ cur0, place_of ran skipped cur0 t = Out →
            chans sh !! ch = Some (Chan 1 (match cur0 with Some _ => [] | None => [tt] end)) →
            cur0 = cur →
            th = Thread (SkipDefault lg) [] →
            ∃ ran' skipped' cur',
              accounted lg ch specs h0 l0 (Config sh' (<[t := th']> p)) ran' skipped' cur').
  { intros cur0 Hpl Hc -> ->. cbn [tstep ctl stk] in Ht. simplify_eq.
    exists ran, (skipped ++ [t]), cur. accounted_split.
    - by apply NoDup_snoc_skipped.
    - simpl. rewrite Hlog, length_app. simpl.
      rewrite Nat.add_1_r. simpl. by rewrite replicate_cons_app, <- app_assoc.
    - intros x. rewrite app_assoc, elem_of_app, list_elem_of_singleton.
      intros [?| ->]; auto.
    - intros t' did Hc'. destruct (Hcur t' did Hc') as [Hn1 Hn2]. split; [|done].
      rewrite app_assoc, elem_of_app, list_elem_of_singleton.
      intros [?| ->]; [done|].
      subst cur. unfold place_of in Hpl.
      rewrite !decide_False, decide_True in Hpl by done. done.
    - eapply Hupd; [done..| |].
      + rewrite place_of_skipped; [done|done|]. apply elem_of_app. right. by left.
      + intros t2 Hne. by rewrite place_of_snoc_skipped.
    - intros _. apply Hgone. right. eauto. }
  destruct cur as [[t' did]|].
  - destruct (decide (t = t')) as [->|Hne].
    + rewrite place_of_in in Hst by done.
      destruct Hst as (rest & Hsplit & [-> | (-> & ->)]).
      * destruct rest as [|a rest].
        -- rewrite tstep_Base_nil in Ht. simplify_eq.
           exists ran, skipped, (Some (t', did)). accounted_split.
           eapply Hupd; [done..| |done].
           rewrite place_of_in by done. exists []. split; [done|]. by right.
        -- cbn [tstep ctl stk] in Ht. simplify_eq.
           exists ran, skipped, (Some (t', did ++ [a])). accounted_split.
           ++ simpl. rewrite Hh. simpl. rewrite map_app. simpl.
              by rewrite <- !app_assoc.
           ++ intros ? ? [= <- _]. eauto.
           ++ eapply Hupd; [done..| |].
              ** rewrite place_of_in by done. exists rest.
                 split; [by rewrite <- app_assoc|]. by left.
              ** intros t2 Hne. by rewrite !place_of_other.
      * rewrite tstep_leave_FSkip in Ht. unfold send in Ht. rewrite Hch in Ht.
        simpl in Ht. simplify_eq.
        exists (ran ++ [t']), skipped, None. accounted_split.
        -- by apply NoDup_snoc_ran.
        -- assert (Hbody : body_events specs t' = map (EvAct t') did).
           { unfold body_events. by rewrite Hspec, Hsplit, app_nil_r. }
           simpl. rewrite Hh, fmap_app, concat_app. simpl.
           rewrite Hbody, !app_nil_r. by rewrite <- ?app_assoc.
        -- simpl. by rewrite lookup_insert_eq.
        -- intros x. rewrite <- app_assoc, elem_of_app. simpl. rewrite elem_of_cons.
           intros [?|[->|?]]; [|done|]; apply Hbound; apply elem_of_app; auto.
        -- eapply Hupd; [done..| |].
           ++ rewrite place_of_ran; [done|]. apply elem_of_app. right. by left.
           ++ intros t2 Hne. rewrite place_of_snoc_ran by done. by rewrite place_of_other.
        -- intros _. left. by destruct ran.
    + pose proof Hst as Hst'. rewrite place_of_other in Hst by done.
      rewrite place_of_out in Hst by done.
      destruct Hst as [-> | ->].
      * unfold invoke, skipping in Ht. rewrite select_default in Ht by done.
        simplify_eq.
        exists ran, skipped, (Some (t', did)). accounted_split.
        eapply Hupd; [done..| |done].
        rewrite place_of_other by done. rewrite place_of_out by done. by right.
      * eapply (Hskip (Some (t', did))); [|done..].
        rewrite place_of_other by done. by apply place_of_out.
  - rewrite place_of_out in Hst by done.
    destruct Hst as [-> | ->].
    + unfold invoke, skipping in Ht. rewrite select_take in Ht by done.
      simplify_eq.
      exists ran, skipped, (Some (t, [])). accounted_split.
      * simpl. by rewrite lookup_insert_eq.
      * intros ? ? [= <- _]. done.
      * eapply Hupd; [done..| |].
        -- rewrite place_of_in by done. exists spec.1. split; [done|]. by left.
        -- intros t2 Hne. by rewrite place_of_other.
    + eapply (Hskip None); [|done..]. by apply place_of_out.
Qed.

Lemma accounted_initial sh0 :
  chans sh0 !! ch = Some (Chan 1 [tt]) →
  accounted lg ch specs (hist sh0) (logs sh0)
    (Config sh0 (invoke ∘ skipping lg ch <$> specs)) [] [] None.
Proof.
  intros Htok. unfold accounted; cbn [store pool]. split_and!; try done.
  - apply NoDup_nil_2.
  - simpl. by rewrite app_nil_r.
  - simpl. by rewrite app_nil_r.
  - by rewrite length_fmap.
  - by intros t ?%elem_of_nil.
  - intros t spec th Hspec Hl. rewrite list_lookup_fmap, Hspec in Hl.
    simplify_eq/=. by left.
  - intros [?|[t Ht]]; [done|]. rewrite list_lookup_fmap in Ht.
    by destruct (specs !! t).
Qed.

Lemma accounted_rtc h0 l0 c c' ran skipped cur :
  accounted lg ch specs h0 l0 c ran skipped cur → rtc step c c' →
  ∃ ran' skipped' cur', accounted lg ch specs h0 l0 c' ran' skipped' cur'.
Proof.
  intros Hacc Hs. revert ran skipped cur Hacc.
  induction Hs as [|c1 c2 c3 Hstep _ IH]; intros ran skipped cur Hacc; [eauto|].
  destruct (accounted_step _ _ _ _ _ _ _ Hacc Hstep) as (ran' & skipped' & cur' & Hacc').
  eauto.
Qed.

Lemma accounted_quiescent h0 l0 c ran skipped cur :
  accounted lg ch specs h0 l0 c ran skipped cur → quiescent c →
  cur = None ∧ ran ++ skipped ≡ₚ seq 0 (length specs).
Proof.
  intros (Hnd & Hh & Hlog & Hch & Hlen & Hbound & Hcur & Hth & Hgone) Hq.
  assert (Hcan : ∀ t, (t < length specs)%nat → ∃ spec th,
             specs !! t = Some spec ∧ pool c !! t = Some th
             ∧ at_place lg ch spec (place_of ran skipped cur t) th).
  { intros t Ht. destruct (lookup_lt_is_Some_2 specs t Ht) as [spec Hspec].
    destruct (lookup_lt_is_Some_2 (pool c) t) as [th Hp]; [by rewrite Hlen|].
    exists spec, th. eauto. }
  destruct cur as [[t' did]|].
  - exfalso. destruct (Hcur t' did eq_refl) as [Hnin Hlt].
    destruct (Hcan t' Hlt) as (spec & th & Hspec & Hp & Hst).
    rewrite place_of_in in Hst by done.
    destruct Hst as (rest & _ & [-> | (_ & ->)]).
    + destruct rest; by eapply (Hq t' _ Hp).
    + eapply (Hq t' _ Hp). rewrite tstep_leave_FSkip. unfold send. by rewrite Hch.
  - split; [done|]. apply NoDup_Permutation; [done|apply NoDup_seq|].
    intros t. rewrite elem_of_seq. split; [intros ?%Hbound; lia|]. intros [_ Ht].
    simpl in Ht.
    destruct (decide (t ∈ ran ++ skipped)) as [|Hnin]; [done|]. exfalso.
    destruct (Hcan t Ht) as (spec & th & Hspec & Hp & Hst).
    rewrite place_of_out in Hst by done.
    destruct Hst as [-> | ->].
    + eapply (Hq t _ Hp). unfold invoke, skipping. by rewrite select_take.
    + by eapply (Hq t _ Hp).
Qed.

Lemma accounted_finished h0 l0 c ran skipped cur t th :
  accounted lg ch specs h0 l0 c ran skipped cur → pool c !! t = Some th →
  (finished th ↔ t ∈ ran ++ skipped)
  ∧ (t ∈ skipped → th = Thread Returning []).
Proof.
  intros (Hnd & Hh & Hlog & Hch & Hlen & Hbound & Hcur & Hth & Hgone) Hp.
  destruct (lookup_lt_is_Some_2 specs t) as [spec Hspec].
  { rewrite <- Hlen. by eapply lookup_lt_Some. }
  pose proof (Hth t spec th Hspec Hp) as Hst.
  destruct (decide (t ∈ ran)) as [Hin|Hnin].
  { rewrite place_of_ran in Hst by done. simpl in Hst. subst th. split.
    - split; [intros _; apply elem_of_app; by left|].
      intros _. split; [apply leaving_leave | done].
    - intros Hsk. apply NoDup_app in Hnd as (_ & Hd & _). by destruct (Hd t). }
  destruct (decide (t ∈ skipped)) as [Hin|Hnin'].
  { rewrite place_of_skipped in Hst by done. simpl in Hst. subst th. split; [|done].
    split; [intros _; apply elem_of_app; by right | done]. }
  split; [|done].
  assert (Hout : t ∉ ran ++ skipped) by (rewrite elem_of_app; tauto).
  split; [|done]. intros [Hk Hs]. exfalso.
  destruct cur as [[t' did]|]; [destruct (decide (t = t')) as [->|]|].
  - rewrite place_of_in in Hst by done.
    destruct Hst as (rest & _ & [-> | (_ & ->)]); done.
  - rewrite place_of_other, place_of_out in Hst by done. destruct Hst as [-> | ->]; done.
  - rewrite place_of_out in Hst by done. destruct Hst as [-> | ->]; done.
Qed.

End Accounted.

(** X13. Invocations of a caller's job wrapped by one
    [SkipIfStillRunning], started with the token in the channel, in any
    execution: every invocation that is over either ran the whole body
    or wrote one "skip" record, never both; the history is the bodies
    of those that ran, whole and one after the other, followed by the
    body under way; the sink has gained exactly one "skip" record for
    each invocation that skipped, and nothing else; a record is only
    there when another invocation took the token.  When no goroutine
    can move, none is inside, every invocation is accounted for, and
    if there was any, at least one ran. *)
Theorem Skip_run_or_skipped lg ch specs sh0 c :
  chans sh0 !! ch = Some (Chan 1 [tt]) →
  rtc step (Config sh0 (invoke ∘ skipping lg ch <$> specs)) c →
  ∃ ran skipped cur,
    NoDup (ran ++ skipped)
    ∧ hist (store c) = hist sh0 ++ concat (body_events specs <$> ran) ++ under_way cur
    ∧ logs (store c) = logs sh0 ++ replicate (length skipped) (lg, Infof skip_format [])
    ∧ (∀ t did, cur = Some (t, did) →
         (t ∉ ran ++ skipped) ∧ ∃ spec rest, specs !! t = Some spec ∧ spec.1 = did ++ rest)
    ∧ (∀ t th, pool c !! t = Some th →
         (finished th ↔ t ∈ ran ++ skipped) ∧ (t ∈ skipped → th = Thread Returning []))
    ∧ (skipped ≠ [] → ran ≠ [] ∨ is_Some cur)
    ∧ (quiescent c →
         cur = None
         ∧ ran ++ skipped ≡ₚ seq 0 (length specs)
         ∧ (length ran + length skipped = length specs)%nat
         ∧ (specs ≠ [] → ran ≠ [])).
Proof.
  intros Htok Hs.
  destruct (accounted_rtc _ _ _ _ _ _ _ _ _ _ (accounted_initial lg ch specs sh0 Htok) Hs)
    as (ran & skipped & cur & Hacc).
  exists ran, skipped, cur. split_and!.
  - apply Hacc.
  - apply Hacc.
  - apply Hacc.
  - intros t did ->.
    destruct Hacc as (_ & _ & _ & _ & Hlen & _ & Hcur & Hth & _).
    destruct (Hcur t did eq_refl) as [Hnin Hlt]. split; [done|].
    destruct (lookup_lt_is_Some_2 specs t Hlt) as [spec Hspec].
    destruct (lookup_lt_is_Some_2 (pool c) t) as [th Hp]; [by rewrite Hlen|].
    pose proof (Hth t spec th Hspec Hp) as Hst.
    rewrite place_of_in in Hst by done. destruct Hst as (rest & Hsplit & _).
    eauto.
  - intros t th Hp. by eapply accounted_finished.
  - intros Hne. destruct Hacc as (_ & _ & _ & _ & _ & _ & _ & _ & Hgone). auto.
  - intros Hq. destruct (accounted_quiescent _ _ _ _ _ _ _ _ _ Hacc Hq) as [-> Hperm].
    split_and!; [done|done| |].
    + rewrite <- length_app, Hperm. apply length_seq.
    + intros Hne. destruct Hacc as (_ & _ & _ & _ & _ & _ & _ & _ & Hgone).
      destruct skipped as [|t skipped].
      * rewrite app_nil_r in Hperm. intros ->. destruct specs; [done|].
        by apply Permutation_nil_cons in Hperm.
      * destruct Hgone as [?|[? [=]]]; [by left|done].
Qed.

Lemma Skip_run_or_skipped_witness :
  chans skip_job.2 !! O = Some (Chan 1 [tt])
  ∧ rtc step skip_pool (after [Go O; Go 1%nat; Go 1%nat; Go O; Go O; Go O; Go O] skip_pool)
  ∧ ∃ (ran skipped : list nat) cur,
      hist (store (after [Go O; Go 1%nat; Go 1%nat; Go O; Go O; Go O; Go O] skip_pool))
      = hist skip_job.2
        ++ concat (body_events [([5%nat; 6%nat], Panic boom); ([5%nat; 6%nat], Panic boom)] <$> ran)
        ++ under_way cur
      ∧ logs (store (after [Go O; Go 1%nat; Go 1%nat; Go O; Go O; Go O; Go O] skip_pool))
        = logs skip_job.2 ++ replicate (length skipped) (1%nat, Infof skip_format []).
Proof.
  assert (Htok : chans skip_job.2 !! O = Some (Chan 1 [tt])) by reflexivity.
  assert (Hs : rtc step skip_pool
                 (after [Go O; Go 1%nat; Go 1%nat; Go O; Go O; Go O; Go O] skip_pool)).
  { auto with chain. }
  split; [exact Htok|]. split; [exact Hs|].
  destruct (Skip_run_or_skipped 1%nat O
              [([5%nat; 6%nat], Panic boom); ([5%nat; 6%nat], Panic boom)]
              skip_job.2 _ Htok Hs) as (ran & skipped & cur & _ & Hh & Hl & _).
  exists ran, skipped, cur. split; [exact Hh | exact Hl].
Defined.
